(** * sqlcmock: the Querier extractor and its driver

    A shallow embedding of [generator] (Parse, fields, exprToString,
    findOutputModule, findModuleRoot, setOutputPackage, Render) and of
    [main] (run, main), with the properties of the extraction pipeline
    stated over it.

    Conventions.
    - A Go string is a [string] (a sequence of bytes).
    - A syntax tree of go/ast is a [ast.Node]; the node kinds the generator
      inspects have constructors of their own, every other kind is
      [ast.Other k children], its dynamic type and its children in the order
      ast.Walk visits them.  The file is parsed without parser.ParseComments,
      so no comment node occurs.
    - A Go call ends in one of four ways, see [outcome]: it returns, it
      returns a non-nil error, it calls log.Fatal, or it panics.
    - Everything the program asks of its surroundings (the parser, the file
      system, strconv, modfile, the template engine, the formatter) is a
      field of [World]. *)

From Stdlib Require Import String Ascii List Bool Arith Lia ZArith.
Import ListNotations.
Local Open Scope list_scope.
Local Open Scope string_scope.

Set Implicit Arguments.

(** ** Ways a call can end *)

(** An error value.  [ErrNoQuerier] is the package variable of that name
    (errors.New gives it an identity no other error shares); [Foreign] is an
    error made elsewhere (errors.New in main, or a library), with its message; [Errorf] is fmt.Errorf(prefix + "%w", cause). *)
Inductive error : Type :=
| ErrNoQuerier
| Foreign (msg : string)
| Errorf (prefix : string) (cause : error).

Fixpoint errorString (e : error) : string :=
  match e with
  | ErrNoQuerier => "no Querier found"
  | Foreign msg => msg
  | Errorf prefix cause => prefix ++ errorString cause
  end.

Inductive outcome (A : Type) : Type :=
| Ret (a : A)            (* returned, with a nil error where there is one *)
| Err (e : error)        (* returned a non-nil error to the caller *)
| Fatal (e : error)      (* log.Fatal(e): prints e, then os.Exit(1) *)
| Panic (msg : string).  (* run-time panic *)

Arguments Ret {A} a.
Arguments Err {A} e.
Arguments Fatal {A} e.
Arguments Panic {A} msg.

Definition bind {A B : Type} (m : outcome A) (k : A -> outcome B) : outcome B :=
  match m with
  | Ret a => k a
  | Err e => Err e
  | Fatal e => Fatal e
  | Panic msg => Panic msg
  end.

Notation "x <- m ;; k" := (bind m (fun x => k))
  (at level 61, m at next level, right associativity).

Fixpoint mapM {A B : Type} (f : A -> outcome B) (l : list A) : outcome (list B) :=
  match l with
  | [] => Ret []
  | x :: l' => y <- f x ;; ys <- mapM f l' ;; Ret (y :: ys)
  end.

Fixpoint foldM {A S : Type} (step : A -> S -> outcome S) (l : list A) (s : S)
  : outcome S :=
  match l with
  | [] => Ret s
  | x :: l' => s' <- step x s ;; foldM step l' s'
  end.

(** What a library call hands back: a value, or an error with its message. *)
Inductive result (A : Type) : Type :=
| Success (a : A)
| Failure (msg : string).

Arguments Success {A} a.
Arguments Failure {A} msg.

Definition nilDereference : string :=
  "runtime error: invalid memory address or nil pointer dereference".

(** ** Bytes and the regular expression needsPackageRe *)

Definition inRange (lo hi : nat) (c : ascii) : bool :=
  Nat.leb lo (nat_of_ascii c) && Nat.leb (nat_of_ascii c) hi.

Definition isUpper (c : ascii) : bool := inRange 65 90 c.    (* [A-Z] *)
Definition isLower (c : ascii) : bool := inRange 97 122 c.   (* [a-z] *)
Definition isDigit (c : ascii) : bool := inRange 48 57 c.    (* [0-9] *)
Definition isAlnum (c : ascii) : bool := isUpper c || isLower c || isDigit c.
Definition isDot (c : ascii) : bool := Ascii.eqb c ".".

Fixpoint allChars (p : ascii -> bool) (s : string) : bool :=
  match s with
  | EmptyString => true
  | String c t => p c && allChars p t
  end.

Fixpoint anyChar (p : ascii -> bool) (s : string) : bool :=
  match s with
  | EmptyString => false
  | String c t => p c || anyChar p t
  end.

(** The longest prefix of bytes in [^A-Za-z0-9], and what follows it. *)
Fixpoint spanNonAlnum (s : string) : string * string :=
  match s with
  | EmptyString => (EmptyString, EmptyString)
  | String c t =>
      if isAlnum c then (EmptyString, s)
      else let (p, r) := spanNonAlnum t in (String c p, r)
  end.

(** needsPackageRe.FindStringSubmatch.  The expression is anchored at both
    ends and has two groups: any number of bytes outside A-Z, a-z, 0-9; then
    one byte in A-Z followed by any number of bytes other than the dot.  The
    value is the two groups of the match, or [None] (a nil slice).  Both negated
    classes hold every byte of a multi-byte rune, so matching bytes gives
    the groups that matching runes gives; [needsPackageRe_spec] below shows
    that the groups are those of the only way to split the text along the
    expression. *)
Definition needsPackageRe (s : string) : option (string * string) :=
  let (p, r) := spanNonAlnum s in
  match r with
  | String c t =>
      if isUpper c && allChars (fun x => negb (isDot x)) t
      then Some (p, r) else None
  | EmptyString => None
  end.

(** ** go/ast *)

Module ast.

(** The node kinds the generator never tells apart. *)
Inductive Kind : Type :=
| KBadExpr | KBasicLit | KEllipsis | KFuncLit | KCompositeLit | KParenExpr
| KIndexExpr | KIndexListExpr | KSliceExpr | KTypeAssertExpr | KCallExpr
| KUnaryExpr | KBinaryExpr | KKeyValueExpr | KMapType | KChanType
| KBadStmt | KDeclStmt | KEmptyStmt | KLabeledStmt | KExprStmt | KSendStmt
| KIncDecStmt | KAssignStmt | KGoStmt | KDeferStmt | KReturnStmt | KBranchStmt
| KBlockStmt | KIfStmt | KCaseClause | KSwitchStmt | KTypeSwitchStmt
| KCommClause | KSelectStmt | KForStmt | KRangeStmt
| KImportSpec | KValueSpec | KBadDecl | KGenDecl | KFuncDecl | KFile.

#[local] Unset Elimination Schemes.

(** A value of the interface ast.Node (ast.Expr, ast.Spec, ast.Decl and
    ast.Stmt are among them).  Every tree of go/ast is one of these; the
    pieces of a node that are no nodes (positions, operators, the text of a
    literal) are left out, except the names of identifiers. *)
Inductive Node : Type :=
| Ident (Name : string)
| SelectorExpr (X : Node) (Sel : string)
| StarExpr (X : Node)
| ArrayType (Len : option Node) (Elt : Node)
| StructType (Fields : list Field)
| FuncType (TypeParams : option (list Field)) (Params : list Field)
           (Results : option (list Field))
| InterfaceType (Methods : list Field)
| TypeSpec (Name : string) (TypeParams : option (list Field)) (Type_ : Node)
| FieldListNode (List_ : list Field)   (* a *FieldList met as a Node *)
| FieldNode (f : Field)                (* a *Field met as a Node *)
| Other (kind : Kind) (children : list Node)
with Field : Type :=
| mkField (Names : list string) (Type_ : Node) (Tag : option string).

#[local] Set Elimination Schemes.

(** A *FieldList is its List; a nil *FieldList is [None]. *)
Abbreviation FieldList := (list Field) (only parsing).

Definition Names (f : Field) : list string := let (n, _, _) := f in n.
Definition Type_ (f : Field) : Node := let (_, t, _) := f in t.
Definition Tag (f : Field) : option string := let (_, _, t) := f in t.

Definition kindName (k : Kind) : string :=
  match k with
  | KBadExpr => "BadExpr" | KBasicLit => "BasicLit" | KEllipsis => "Ellipsis"
  | KFuncLit => "FuncLit" | KCompositeLit => "CompositeLit"
  | KParenExpr => "ParenExpr" | KIndexExpr => "IndexExpr"
  | KIndexListExpr => "IndexListExpr" | KSliceExpr => "SliceExpr"
  | KTypeAssertExpr => "TypeAssertExpr" | KCallExpr => "CallExpr"
  | KUnaryExpr => "UnaryExpr" | KBinaryExpr => "BinaryExpr"
  | KKeyValueExpr => "KeyValueExpr" | KMapType => "MapType"
  | KChanType => "ChanType" | KBadStmt => "BadStmt" | KDeclStmt => "DeclStmt"
  | KEmptyStmt => "EmptyStmt" | KLabeledStmt => "LabeledStmt"
  | KExprStmt => "ExprStmt" | KSendStmt => "SendStmt"
  | KIncDecStmt => "IncDecStmt" | KAssignStmt => "AssignStmt"
  | KGoStmt => "GoStmt" | KDeferStmt => "DeferStmt"
  | KReturnStmt => "ReturnStmt" | KBranchStmt => "BranchStmt"
  | KBlockStmt => "BlockStmt" | KIfStmt => "IfStmt"
  | KCaseClause => "CaseClause" | KSwitchStmt => "SwitchStmt"
  | KTypeSwitchStmt => "TypeSwitchStmt" | KCommClause => "CommClause"
  | KSelectStmt => "SelectStmt" | KForStmt => "ForStmt"
  | KRangeStmt => "RangeStmt" | KImportSpec => "ImportSpec"
  | KValueSpec => "ValueSpec" | KBadDecl => "BadDecl" | KGenDecl => "GenDecl"
  | KFuncDecl => "FuncDecl" | KFile => "File"
  end.

(** The dynamic type of a node as the verb %T prints it. *)
Definition typeName (n : Node) : string :=
  "*ast." ++
  match n with
  | Ident _ => "Ident"
  | SelectorExpr _ _ => "SelectorExpr"
  | StarExpr _ => "StarExpr"
  | ArrayType _ _ => "ArrayType"
  | StructType _ => "StructType"
  | FuncType _ _ _ => "FuncType"
  | InterfaceType _ => "InterfaceType"
  | TypeSpec _ _ _ => "TypeSpec"
  | FieldListNode _ => "FieldList"
  | FieldNode _ => "Field"
  | Other k _ => kindName k
  end.

(** Nodes of the other kinds, by their go/ast names. *)
Definition BasicLit : Node := Other KBasicLit [].
Definition Ellipsis (Elt : Node) : Node := Other KEllipsis [Elt].
Definition MapType (Key Value : Node) : Node := Other KMapType [Key; Value].
Definition ChanType (Value : Node) : Node := Other KChanType [Value].
Definition GenDecl (Specs : list Node) : Node := Other KGenDecl Specs.
Definition DeclStmt (Decl : Node) : Node := Other KDeclStmt [Decl].
Definition BlockStmt (List_ : list Node) : Node := Other KBlockStmt List_.
(** A function declaration without receiver. *)
Definition FuncDecl (Name : string) (Type_ : Node) (Body : Node) : Node :=
  Other KFuncDecl [Ident Name; Type_; Body].
Definition ImportSpecNode (Name : option string) : Node :=
  Other KImportSpec
    ((match Name with Some n => [Ident n] | None => [] end) ++ [BasicLit])%list.

(** An import declaration as Parse reads it from File.Imports: the alias,
    when there is one, and the quoted path literal. *)
Record ImportSpec : Type := {
  ImportName : option string;
  ImportPath : string
}.

Record File : Type := {
  FileName : string;            (* File.Name.Name, the package clause *)
  Decls : list Node;
  Imports : list ImportSpec
}.

(** The *File as a Node: ast.Walk visits its Name, then its Decls. *)
Definition FileNode (f : File) : Node :=
  Other KFile (Ident (FileName f) :: Decls f).

End ast.

Import ast.

(** ** generator: the records *)

Record Opts : Type := {
  InputFile : string;
  TemplateFile : string;
  OutputFile : string;
  OutputPackage : string;
  Format : bool
}.

Record Field : Type := { FieldName : string; FieldType : string }.

Record Method : Type := {
  MethodName : string;
  Input : list Field;
  Output_ : list Field
}.

Record Import : Type := { Path : string; Name : string }.

Record Output : Type := {
  GenPackage : string;
  ModelPath : string;
  Package : string;
  Struct : string;
  Imports : list Import;
  Methods : list Method
}.

(** ** generator: exprToString and fields *)

Definition sentinel (expr : ast.Node) : string :=
  "<error_unhandled_" ++ ast.typeName expr ++ ">".

(** exprToString.  The type assertion on v.X panics unless X is an
    identifier.  The line log.Printf writes for the default case is not
    modelled. *)
Fixpoint exprToString (expr : ast.Node) : outcome string :=
  match expr with
  | ast.Ident name => Ret name
  | ast.SelectorExpr x sel =>
      match x with
      | ast.Ident q => Ret (q ++ "." ++ sel)
      | _ => Panic ("interface conversion: ast.Expr is " ++ ast.typeName x
                      ++ ", not *ast.Ident")
      end
  | ast.ArrayType _ elt => s <- exprToString elt ;; Ret ("[]" ++ s)
  | ast.StarExpr x => s <- exprToString x ;; Ret ("*" ++ s)
  | _ => Ret (sentinel expr)
  end.

(** The name fields gives an entry: Names[0] when there is one.  Names holds
    identifiers, never nil, so the test Names[0] != nil adds nothing to the
    test on the length. *)
Definition firstName (names : list string) : string :=
  match names with n :: _ => n | [] => "" end.

(** The body of the loop of fields, for one entry of the list. *)
Definition fieldOf (pkg : string) (field : ast.Field) : outcome Field :=
  let name := firstName (ast.Names field) in
  tp <- exprToString (ast.Type_ field) ;;
  let tp' := match needsPackageRe tp with
             | Some (m1, m2) => m1 ++ pkg ++ "." ++ m2
             | None => tp
             end in
  Ret {| FieldName := name; FieldType := tp' |}.

(** fields.  Reading list.List of a nil list panics. *)
Definition fields (list_ : option ast.FieldList) (pkg : string) : outcome (list Field) :=
  match list_ with
  | None => Panic nilDereference
  | Some l => mapM (fieldOf pkg) l
  end.

(** ** go/ast: induction over trees, and ast.Inspect *)

Module astWalk.
Import ast.

Definition OptionAll {A : Type} (P : A -> Prop) (o : option A) : Prop :=
  match o with Some x => P x | None => True end.

Section NodeInduction.
Variables (P : Node -> Prop) (Q : Field -> Prop).
Hypothesis HIdent : forall name, P (Ident name).
Hypothesis HSelectorExpr : forall x sel, P x -> P (SelectorExpr x sel).
Hypothesis HStarExpr : forall x, P x -> P (StarExpr x).
Hypothesis HArrayType :
  forall len elt, OptionAll P len -> P elt -> P (ArrayType len elt).
Hypothesis HStructType : forall fl, Forall Q fl -> P (StructType fl).
Hypothesis HFuncType :
  forall tps ps rs, OptionAll (Forall Q) tps -> Forall Q ps ->
                    OptionAll (Forall Q) rs -> P (FuncType tps ps rs).
Hypothesis HInterfaceType : forall ms, Forall Q ms -> P (InterfaceType ms).
Hypothesis HTypeSpec :
  forall name tps ty, OptionAll (Forall Q) tps -> P ty -> P (TypeSpec name tps ty).
Hypothesis HFieldListNode : forall fl, Forall Q fl -> P (FieldListNode fl).
Hypothesis HFieldNode : forall f, Q f -> P (FieldNode f).
Hypothesis HOther : forall k cs, Forall P cs -> P (Other k cs).
Hypothesis HField : forall names ty tag, P ty -> Q (mkField names ty tag).

Fixpoint Node_induction (n : Node) : P n :=
  let fieldsAll :=
    fix go (l : list Field) : Forall Q l :=
      match l with
      | [] => Forall_nil Q
      | f :: l' => Forall_cons f (Field_induction f) (go l')
      end in
  let optFieldsAll (o : option (list Field)) : OptionAll (Forall Q) o :=
    match o with Some l => fieldsAll l | None => I end in
  match n with
  | Ident name => HIdent name
  | SelectorExpr x sel => HSelectorExpr sel (Node_induction x)
  | StarExpr x => HStarExpr (Node_induction x)
  | ArrayType len elt =>
      HArrayType len
        (match len return OptionAll P len with
         | Some l => Node_induction l
         | None => I
         end)
        (Node_induction elt)
  | StructType fl => HStructType (fieldsAll fl)
  | FuncType tps ps rs =>
      HFuncType tps rs (optFieldsAll tps) (fieldsAll ps) (optFieldsAll rs)
  | InterfaceType ms => HInterfaceType (fieldsAll ms)
  | TypeSpec name tps ty => HTypeSpec name tps (optFieldsAll tps) (Node_induction ty)
  | FieldListNode fl => HFieldListNode (fieldsAll fl)
  | FieldNode f => HFieldNode (Field_induction f)
  | Other k cs =>
      HOther k
        ((fix go (l : list Node) : Forall P l :=
            match l with
            | [] => Forall_nil P
            | c :: l' => Forall_cons c (Node_induction c) (go l')
            end) cs)
  end
with Field_induction (f : Field) : Q f :=
  match f with
  | mkField names ty tag => HField names tag (Node_induction ty)
  end.
End NodeInduction.

(** ast.Inspect(node, f), with the variables f captures passed as a state.
    [f] is applied to [Some n] at a node and to [None] (nil) once the
    children of a node it answered true for are done; answering false
    leaves the children out. *)
Section Inspect.
Variable S : Type.
Variable f : option Node -> S -> outcome (bool * S).

Definition visit (n : Node) (children : S -> outcome S) (s : S) : outcome S :=
  r <- f (Some n) s ;;
  if fst r
  then s' <- children (snd r) ;; r' <- f None s' ;; Ret (snd r')
  else Ret (snd r).

(** walkList *)
Definition walkList {A : Type} (w : A -> S -> outcome S) (l : list A)
  : S -> outcome S := foldM w l.

Definition walkOpt {A : Type} (w : A -> S -> outcome S) (o : option A) (s : S)
  : outcome S :=
  match o with Some x => w x s | None => Ret s end.

Definition walkIdent (name : string) : S -> outcome S :=
  visit (Ident name) (@Ret S).

(** The switch of ast.Walk: the children of a node, in its order. *)
Fixpoint walkChildren (n : Node) (s : S) {struct n} : outcome S :=
  let walk := fun c => visit c (walkChildren c) in
  let walkField := fun fd => visit (FieldNode fd) (walkFieldChildren fd) in
  let walkFieldList := fun fl => visit (FieldListNode fl) (walkList walkField fl) in
  match n with
  | Ident _ => Ret s
  | SelectorExpr x sel => s1 <- walk x s ;; walkIdent sel s1
  | StarExpr x => walk x s
  | ArrayType len elt => s1 <- walkOpt walk len s ;; walk elt s1
  | StructType fl => walkFieldList fl s
  | FuncType tps ps rs =>
      s1 <- walkOpt walkFieldList tps s ;;
      s2 <- walkFieldList ps s1 ;;
      walkOpt walkFieldList rs s2
  | InterfaceType ms => walkFieldList ms s
  | TypeSpec name tps ty =>
      s1 <- walkIdent name s ;;
      s2 <- walkOpt walkFieldList tps s1 ;;
      walk ty s2
  | FieldListNode fl => walkList walkField fl s
  | FieldNode fd => walkFieldChildren fd s
  | Other _ cs => walkList walk cs s
  end
with walkFieldChildren (fd : Field) (s : S) {struct fd} : outcome S :=
  match fd with
  | mkField names ty tag =>
      s1 <- walkList walkIdent names s ;;
      s2 <- visit ty (walkChildren ty) s1 ;;
      walkOpt (fun _ => visit BasicLit (@Ret S)) tag s2
  end.

Definition Walk (n : Node) : S -> outcome S := visit n (walkChildren n).
Definition WalkField (fd : Field) : S -> outcome S :=
  visit (FieldNode fd) (walkFieldChildren fd).
Definition WalkFieldList (fl : FieldList) : S -> outcome S :=
  visit (FieldListNode fl) (walkList WalkField fl).

Definition Inspect (node : Node) (s : S) : outcome S := Walk node s.
End Inspect.

(** The nodes below a node, in the order ast.Walk reaches them when nothing
    is left out. *)
Definition optForest {A : Type} (pre : A -> list Node) (o : option A) : list Node :=
  match o with Some x => pre x | None => [] end.

Fixpoint descendants (n : Node) : list Node :=
  let pre := fun c => c :: descendants c in
  let preField := fun fd => FieldNode fd :: descendantsField fd in
  let preFieldList := fun fl => FieldListNode fl :: flat_map preField fl in
  match n with
  | Ident _ => []
  | SelectorExpr x sel => pre x ++ [Ident sel]
  | StarExpr x => pre x
  | ArrayType len elt => optForest pre len ++ pre elt
  | StructType fl => preFieldList fl
  | FuncType tps ps rs =>
      optForest preFieldList tps ++ preFieldList ps ++ optForest preFieldList rs
  | InterfaceType ms => preFieldList ms
  | TypeSpec name tps ty => [Ident name] ++ optForest preFieldList tps ++ pre ty
  | FieldListNode fl => flat_map preField fl
  | FieldNode fd => descendantsField fd
  | Other _ cs => flat_map pre cs
  end%list
with descendantsField (fd : Field) : list Node :=
  match fd with
  | mkField names ty tag =>
      map Ident names ++ (ty :: descendants ty)
        ++ match tag with Some _ => [BasicLit] | None => [] end
  end%list.

(** A node and all nodes below it. *)
Definition preorder (n : Node) : list Node := n :: descendants n.
Definition preorderField (fd : Field) : list Node :=
  FieldNode fd :: descendantsField fd.
Definition preorderFieldList (fl : FieldList) : list Node :=
  FieldListNode fl :: flat_map preorderField fl.

End astWalk.

(** ** path/filepath and strings, as far as the generator uses them *)

Module filepath.

(** A cleaned absolute path, as filepath.Abs returns it on a system whose
    separator is the slash: its elements from the root down; [[]] is the
    root directory. *)
Definition path : Type := list string.

Fixpoint joinElements (p : path) : string :=
  match p with
  | [] => ""
  | e :: p' => "/" ++ e ++ joinElements p'
  end.

(** The text of a path. *)
Definition toString (p : path) : string :=
  match p with
  | [] => "/"
  | _ => joinElements p
  end.

Definition Dir (p : path) : path := removelast p.

(** filepath.Base of the text of [p]. *)
Definition Base (p : path) : string := last p "/".

(** filepath.Join(dir, elem) for a directory that is empty or the text of a
    [path], and an element without separator. *)
Definition Join (dir elem : string) : string :=
  if String.eqb dir "" then elem
  else if String.eqb dir "/" then "/" ++ elem
  else dir ++ "/" ++ elem.

(** d == dir *)
Fixpoint eqb (p q : path) : bool :=
  match p, q with
  | [], [] => true
  | a :: p', b :: q' => String.eqb a b && eqb p' q'
  | _, _ => false
  end.

End filepath.

Module strings.

Fixpoint cutPrefix (s prefix : string) : option string :=
  match prefix, s with
  | EmptyString, _ => Some s
  | String a prefix', String b s' =>
      if Ascii.eqb a b then cutPrefix s' prefix' else None
  | String _ _, EmptyString => None
  end.

Definition TrimPrefix (s prefix : string) : string :=
  match cutPrefix s prefix with Some r => r | None => s end.

End strings.

(** ** The surroundings of a run *)

Record World : Type := {
  (** parser.ParseFile(fset, name, nil, parser.SkipObjectResolution) *)
  ParseFile : string -> result ast.File;
  (** strconv.Unquote *)
  Unquote : string -> result string;
  (** filepath.Abs *)
  Abs : string -> result filepath.path;
  (** os.Stat(name) succeeds and the entry is not a directory *)
  IsRegular : string -> bool;
  (** os.ReadFile *)
  ReadFile : string -> result string;
  (** modfile.Parse(name, content, nil): the path of the module directive,
      [None] when the file has none (File.Module is nil) *)
  ModfileParse : string -> string -> result (option string);
  (** the embedded default.tpl *)
  defaultTpl : string;
  (** template.New("mock").Funcs(funcs).Parse(text): the error, if any *)
  TemplateParse : string -> option string;
  (** tpl.Execute(&buff, output) for the template parsed from the text *)
  TemplateExecute : string -> Output -> result string;
  (** format.Source *)
  FormatSource : string -> result string;
  (** os.WriteFile(name, data, 0644): the error, if any *)
  WriteFile : string -> string -> option string
}.

(** ** generator: Parse *)

Import astWalk.

(** The function of the first ast.Inspect of Parse; the state is the
    variable querier. *)
Definition findQuerierFunc (n : option ast.Node) (querier : option ast.Node)
  : outcome (bool * option ast.Node) :=
  match n with
  | Some (ast.TypeSpec name _ _ as tp) =>
      if String.eqb name "Querier" then Ret (false, Some tp)
      else Ret (true, querier)
  | _ => Ret (true, querier)
  end.

Definition findQuerier (file : ast.File) : outcome (option ast.Node) :=
  Inspect findQuerierFunc (ast.FileNode file) None.

(** The function of the second ast.Inspect of Parse; the state is the pair
    of the variables funcName and methods. *)
Definition collectFunc (pkg : string) (n : option ast.Node)
    (st : string * list Method) : outcome (bool * (string * list Method)) :=
  let funcName := match n with
                  | Some (ast.Ident name) => name
                  | _ => fst st
                  end in
  match n with
  | Some (ast.FuncType _ params results) =>
      input <- fields (Some params) pkg ;;
      output <- fields results pkg ;;
      Ret (true, (funcName,
                  (snd st ++ [ {| MethodName := funcName;
                                  Input := input;
                                  Output_ := output |} ])%list))
  | _ => Ret (true, (funcName, snd st))
  end.

Definition collectMethods (pkg : string) (querier : ast.Node)
  : outcome (list Method) :=
  st <- Inspect (collectFunc pkg) querier ("", []) ;; Ret (snd st).

Definition importOf (w : World) (imp : ast.ImportSpec) : outcome Import :=
  match Unquote w (ast.ImportPath imp) with
  | Failure msg => Err (Foreign msg)
  | Success path =>
      Ret {| Path := path;
             Name := match ast.ImportName imp with Some n => n | None => "" end |}
  end.

Definition withGenPackage (output : Output) (v : string) : Output :=
  {| GenPackage := v; ModelPath := ModelPath output; Package := Package output;
     Struct := Struct output; Imports := Imports output;
     Methods := Methods output |}.

Definition withModelPath (output : Output) (v : string) : Output :=
  {| GenPackage := GenPackage output; ModelPath := v; Package := Package output;
     Struct := Struct output; Imports := Imports output;
     Methods := Methods output |}.

Definition setOutputPackage (w : World) (output : Output) (opts : Opts)
  : outcome Output :=
  if negb (String.eqb (OutputPackage opts) "")
  then Ret (withGenPackage output (OutputPackage opts))
  else match Abs w (OutputFile opts) with
       | Failure msg => Fatal (Foreign msg)
       | Success outPath =>
           Ret (withGenPackage output (filepath.Base (filepath.Dir outPath)))
       end.

(** The loop of findModuleRoot, with a bound on its rounds; [findModuleRoot]
    gives it one round per element of the path and one for the root, which
    [findModuleRootLoop_enough] shows to be all it ever takes. *)
Fixpoint findModuleRootLoop (w : World) (rounds : nat) (dir : filepath.path)
  : string :=
  match rounds with
  | O => ""
  | S rounds' =>
      if IsRegular w (filepath.Join (filepath.toString dir) "go.mod")
      then filepath.toString dir
      else let d := filepath.Dir dir in
           if filepath.eqb d dir then "" else findModuleRootLoop w rounds' d
  end.

Definition findModuleRoot (w : World) (dir : filepath.path) : string :=
  findModuleRootLoop w (S (length dir)) dir.

Definition findOutputModule (w : World) (output : Output) (opts : Opts)
  : outcome Output :=
  match Abs w (InputFile opts) with
  | Failure msg => Err (Foreign msg)
  | Success abs =>
      let dir := filepath.Dir abs in
      let root := findModuleRoot w dir in
      let modFile := filepath.Join root "go.mod" in
      match ReadFile w modFile with
      | Failure msg => Err (Foreign msg)
      | Success modContent =>
          match ModfileParse w modFile modContent with
          | Failure msg => Err (Foreign msg)
          | Success None => Panic nilDereference
          | Success (Some modPath) =>
              Ret (withModelPath output
                     (modPath ++ strings.TrimPrefix (filepath.toString dir) root))
          end
      end
  end.

Definition Parse (w : World) (opts : Opts) : outcome Output :=
  match ParseFile w (InputFile opts) with
  | Failure msg => Fatal (Foreign msg)
  | Success file =>
      querier <- findQuerier file ;;
      match querier with
      | None => Err ErrNoQuerier
      | Some q =>
          let pkg := ast.FileName file in
          methods <- collectMethods pkg q ;;
          imports <- mapM (importOf w) (ast.Imports file) ;;
          let output := {| GenPackage := ""; ModelPath := ""; Package := pkg;
                           Struct := "Mocker"; Imports := imports;
                           Methods := methods |} in
          output' <- setOutputPackage w output opts ;;
          findOutputModule w output' opts
      end
  end.

(** ** generator: Render *)

(** The first lines of Render: the text of the template. *)
Definition templateContentOf (w : World) (opts : Opts) : outcome string :=
  if negb (String.eqb (TemplateFile opts) "")
  then match ReadFile w (TemplateFile opts) with
       | Failure msg => Err (Errorf "failed to open template file: " (Foreign msg))
       | Success content => Ret content
       end
  else Ret (defaultTpl w).

Definition Render (w : World) (output : Output) (opts : Opts) : outcome string :=
  templateContent <- templateContentOf w opts ;;
  match TemplateParse w templateContent with
  | Some msg => Fatal (Foreign msg)
  | None =>
      match TemplateExecute w templateContent output with
      | Failure msg => Fatal (Foreign msg)
      | Success buff =>
          if negb (Format opts) then Ret buff
          else match FormatSource w buff with
               | Failure msg => Err (Errorf "failed to format source: " (Foreign msg))
               | Success formatted => Ret formatted
               end
      end
  end.

(** ** main *)

(** The command line once pflag has parsed it. *)
Record CommandLine : Type := {
  template : string;
  output : string;
  package : string;
  format : bool;
  Args : list string
}.

(** What a call of run leaves behind: the calls of os.WriteFile it made
    (name and data), and how it ended. *)
Definition optsOf (cl : CommandLine) (arg0 : string) : Opts :=
  {| InputFile := arg0; TemplateFile := template cl; OutputFile := output cl;
     OutputPackage := package cl; Format := format cl |}.

Definition run (w : World) (cl : CommandLine)
  : list (string * string) * outcome unit :=
  match Args cl with
  | [] => ([], Err (Foreign "usage: shmock path/to/querier.go"))
  | arg0 :: _ =>
      let opts := optsOf cl arg0 in
      match (out <- Parse w opts ;; Render w out opts) with
      | Ret generated =>
          ([(OutputFile opts, generated)],
           match WriteFile w (OutputFile opts) generated with
           | Some msg => Err (Foreign msg)
           | None => Ret tt
           end)
      | Err e => ([], Err e)
      | Fatal e => ([], Fatal e)
      | Panic msg => ([], Panic msg)
      end
  end.

(** The process as seen from outside. *)
Record Process : Type := {
  exitStatus : nat;
  logged : list string;              (* what went to standard error *)
  written : list (string * string)   (* the calls of os.WriteFile *)
}.

Definition main (w : World) (cl : CommandLine) : Process :=
  let (ws, r) := run w cl in
  match r with
  | Ret _ => {| exitStatus := 0; logged := []; written := ws |}
  | Err e => {| exitStatus := 1; logged := [errorString e]; written := ws |}
  | Fatal e => {| exitStatus := 1; logged := [errorString e]; written := ws |}
  | Panic msg => {| exitStatus := 2; logged := ["panic: " ++ msg]; written := ws |}
  end.

(** ** Notions the properties are stated with *)

Definition isFuncType (n : Node) : bool :=
  match n with FuncType _ _ _ => true | _ => false end.

(** The function-type nodes in a tree. *)
Definition countFuncType (n : Node) : nat :=
  length (filter isFuncType (preorder n)).

Definition noFuncType (n : Node) : bool :=
  forallb (fun c => negb (isFuncType c)) (preorder n).

(** The entries of an interface type that declare a method, for a type
    declaration whose type is an interface. *)
Definition declaredMethods (querier : Node) : list ast.Field :=
  match querier with
  | TypeSpec _ _ (InterfaceType ms) =>
      filter (fun fd => isFuncType (ast.Type_ fd)) ms
  | _ => []
  end.

Definition isQuerierSpec (n : Node) : bool :=
  match n with
  | TypeSpec name _ _ => String.eqb name "Querier"
  | _ => false
  end.

(** A type declaration named Querier occurs somewhere in the tree. *)
Definition containsQuerier (n : Node) : bool :=
  existsb isQuerierSpec (preorder n).

Definition isRet {A : Type} (m : outcome A) : bool :=
  match m with Ret _ => true | _ => false end.

Definition notAlnum (c : ascii) : bool := negb (isAlnum c).
Definition notDot (c : ascii) : bool := negb (isDot c).

Definition upperInitial (name : string) : bool :=
  match name with String c _ => isUpper c | EmptyString => false end.

Definition lowerInitial (name : string) : bool :=
  match name with String c _ => isLower c | EmptyString => false end.

(** What collectFunc does to funcName and methods at a node. *)
Definition collectStep (pkg : string) (n : Node) (st : string * list Method)
  : outcome (string * list Method) :=
  match n with
  | Ident name => Ret (name, snd st)
  | FuncType _ params results =>
      input <- fields (Some params) pkg ;;
      output <- fields results pkg ;;
      Ret (fst st, (snd st ++ [ {| MethodName := fst st; Input := input;
                                   Output_ := output |} ])%list)
  | _ => Ret st
  end.

(** An interface as its source declares it: methods, each with a name, a
    parameter list and a result list that is present, and embedded types. *)
Record MethodDecl : Type := {
  declName : string;
  declParams : ast.FieldList;
  declResults : ast.FieldList
}.

Inductive Entry : Type :=
| Declared (d : MethodDecl)
| Embedded (ty : Node).

Definition entryField (e : Entry) : ast.Field :=
  match e with
  | Declared d =>
      mkField [declName d]
        (FuncType None (declParams d) (Some (declResults d))) None
  | Embedded ty => mkField [] ty None
  end.

Definition declaredOf (es : list Entry) : list MethodDecl :=
  flat_map (fun e => match e with Declared d => [d] | Embedded _ => [] end) es.

Definition interfaceDecl (es : list Entry) : Node :=
  TypeSpec "Querier" None (InterfaceType (map entryField es)).

(** A parameter or result whose type holds no function type and is rendered
    without panic. *)
Definition plainField (fd : ast.Field) : bool :=
  noFuncType (ast.Type_ fd) && isRet (exprToString (ast.Type_ fd)).

Definition plainEntry (e : Entry) : bool :=
  match e with
  | Declared d => forallb plainField (declParams d) && forallb plainField (declResults d)
  | Embedded ty => noFuncType ty
  end.

(** The Method record a declared method should give. *)
Definition extracted (pkg : string) (d : MethodDecl) (m : Method) : Prop :=
  MethodName m = declName d /\
  fields (Some (declParams d)) pkg = Ret (Input m) /\
  fields (Some (declResults d)) pkg = Ret (Output_ m).

(** The call returns or panics; it neither returns an error nor exits. *)
Definition returnsOrPanics {A : Type} (m : outcome A) : Prop :=
  match m with Ret _ | Panic _ => True | Err _ | Fatal _ => False end.

(** The call does not return ErrNoQuerier. *)
Definition notErrNoQuerier {A : Type} (m : outcome A) : Prop :=
  m <> Err ErrNoQuerier.

(** What the variable querier holds once a declaration was found. *)
Definition isFound (querier : option Node) : Prop :=
  match querier with
  | Some n => isQuerierSpec n = true
  | None => False
  end.

(** ** Sample inputs *)

Definition doubleQuote : string := String (ascii_of_nat 34) EmptyString.

Definition param (name : string) (ty : Node) : ast.Field := mkField [name] ty None.
Definition unnamed (ty : Node) : ast.Field := mkField [] ty None.
Definition method (name : string) (params : FieldList) (results : option FieldList)
  : ast.Field :=
  mkField [name] (FuncType None params results) None.
Definition querierOf (methods : FieldList) : Node :=
  TypeSpec "Querier" None (InterfaceType methods).
Definition errorOnly : FieldList := [unnamed (Ident "error")].

(** GetUser(ctx context.Context, id int) with results pointer to User, error *)
Definition getUser : MethodDecl :=
  {| declName := "GetUser";
     declParams := [param "ctx" (SelectorExpr (Ident "context") "Context");
                    param "id" (Ident "int")];
     declResults := [unnamed (StarExpr (Ident "User")); unnamed (Ident "error")] |}.

(** Watch(c chan int) error *)
Definition watch : MethodDecl :=
  {| declName := "Watch";
     declParams := [param "c" (ChanType (Ident "int"))];
     declResults := errorOnly |}.

(** The record for watch: the channel type is rendered as the sentinel. *)
Definition watchMethod : Method :=
  {| MethodName := "Watch";
     Input := [ {| FieldName := "c";
                   FieldType := "<error_unhandled_*ast.ChanType>" |} ];
     Output_ := [ {| FieldName := ""; FieldType := "error" |} ] |}.

(** type Querier interface { Add(a, b int) error } *)
Definition addQuerier : Node :=
  querierOf [method "Add" [mkField ["a"; "b"] (Ident "int") None] (Some errorOnly)].

(** type Querier interface { Close() } *)
Definition closeQuerier : Node := querierOf [method "Close" [] None].

(** type Querier interface { Each(cb func(int) error) error; Bar() error } *)
Definition eachQuerier : Node :=
  querierOf [method "Each"
               [param "cb" (FuncType None [unnamed (Ident "int")] (Some errorOnly))]
               (Some errorOnly);
             method "Bar" [] (Some errorOnly)].

(** The records the second traversal gives for eachQuerier. *)
Definition eachMethods : list Method :=
  [ {| MethodName := "Each";
       Input := [ {| FieldName := "cb";
                     FieldType := "<error_unhandled_*ast.FuncType>" |} ];
       Output_ := [ {| FieldName := ""; FieldType := "error" |} ] |};
    {| MethodName := "cb";
       Input := [ {| FieldName := ""; FieldType := "int" |} ];
       Output_ := [ {| FieldName := ""; FieldType := "error" |} ] |};
    {| MethodName := "Bar";
       Input := [];
       Output_ := [ {| FieldName := ""; FieldType := "error" |} ] |} ].

(** type Querier interface { Notify(cb func()) error; Bar() error } *)
Definition notifyQuerier : Node :=
  querierOf [method "Notify" [param "cb" (FuncType None [] None)] (Some errorOnly);
             method "Bar" [] (Some errorOnly)].

(** A file of package db that imports context and holds the declarations. *)
Definition fileOf (decls : list Node) : ast.File :=
  {| FileName := "db";
     Decls := GenDecl [ImportSpecNode None] :: decls;
     ast.Imports := [ {| ImportName := None;
                         ImportPath := doubleQuote ++ "context" ++ doubleQuote |} ] |}.

(** func helper() { type Querier struct{} } *)
Definition nestedStructQuerier : Node :=
  FuncDecl "helper" (FuncType None [] None)
    (BlockStmt [DeclStmt (GenDecl [TypeSpec "Querier" None (StructType [])])]).

(** A module example.com/proj at /proj, the input /proj/db/querier.go and
    the output /proj/mock/mock.go; what the parser, the module file and the
    template engine give is left open. *)
Definition sampleWorld (parsed : result ast.File) (gomod : result string)
    (tplParse : option string) (tplExec : result string) : World :=
  {| ParseFile := fun _ => parsed;
     Unquote := fun s => Success (substring 1 (String.length s - 2) s);
     Abs := fun name =>
              if String.eqb name "db/querier.go"
              then Success ["proj"; "db"; "querier.go"]
              else if String.eqb name "mock/mock.go"
                   then Success ["proj"; "mock"; "mock.go"]
                   else Failure "getwd: no such file or directory";
     IsRegular := fun name => String.eqb name "/proj/go.mod";
     ReadFile := fun name =>
                   if String.eqb name "/proj/go.mod" then gomod
                   else Failure ("open " ++ name ++ ": no such file or directory");
     ModfileParse := fun _ content =>
                       if String.eqb content "module example.com/proj"
                       then Success (Some "example.com/proj")
                       else Failure "go.mod:1: unknown directive";
     defaultTpl := "package {{.GenPackage}}";
     TemplateParse := fun _ => tplParse;
     TemplateExecute := fun _ _ => tplExec;
     FormatSource := fun src => Success src;
     WriteFile := fun _ _ => None |}.

Definition goodWorld (decls : list Node) : World :=
  sampleWorld (Success (fileOf decls)) (Success "module example.com/proj")
    None (Success "package mock").

(** The identifier made of the Greek letter pi, in UTF-8. *)
Definition piName : string :=
  String (ascii_of_nat 207) (String (ascii_of_nat 128) EmptyString).

(** type Querier interface { GetUser ... } followed by type Querier struct{} *)
Definition twoQueriers : list Node :=
  [GenDecl [interfaceDecl [Declared getUser]];
   GenDecl [TypeSpec "Querier" None (StructType [])]].


Definition sampleCommandLine : CommandLine :=
  {| template := ""; output := "mock/mock.go"; package := ""; format := true;
     Args := ["db/querier.go"] |}.

Definition sampleOpts : Opts := optsOf sampleCommandLine "db/querier.go".

(** What Parse gives in [goodWorld] for the interface with getUser alone. *)
Definition getUserOutput : Output :=
  {| GenPackage := "mock"; ModelPath := "example.com/proj/db";
     Package := "db"; Struct := "Mocker";
     Imports := [ {| Path := "context"; Name := "" |} ];
     Methods := [ {| MethodName := "GetUser";
         Input := [ {| FieldName := "ctx"; FieldType := "context.Context" |};
                    {| FieldName := "id"; FieldType := "int" |} ];
         Output_ := [ {| FieldName := ""; FieldType := "*db.User" |};
                      {| FieldName := ""; FieldType := "error" |} ] |} ] |}.

Definition getUserFile : ast.File :=
  fileOf [GenDecl [interfaceDecl [Declared getUser]]].

(** ** Notions for the further properties *)

(** The function types of a forest in the order of the traversal, each as
    its Params and Results with the identifier met last before it; [cur] is
    the identifier met last before the forest. *)
Fixpoint funcTypesNamed (l : list Node) (cur : string)
  : list (string * (FieldList * option FieldList)) :=
  match l with
  | [] => []
  | Ident name :: l' => funcTypesNamed l' name
  | FuncType _ params results :: l' => (cur, (params, results)) :: funcTypesNamed l' cur
  | _ :: l' => funcTypesNamed l' cur
  end.

(** The record Parse appends at a function type met under the name [fst x]. *)
Definition methodOf (pkg : string) (x : string * (FieldList * option FieldList))
  : outcome Method :=
  input <- fields (Some (fst (snd x))) pkg ;;
  output <- fields (snd (snd x)) pkg ;;
  Ret {| MethodName := fst x; Input := input; Output_ := output |}.

(** No selector whose qualifier is no identifier is reached through the
    pointers and arrays of the expression. *)
Fixpoint renders (e : Node) : bool :=
  match e with
  | SelectorExpr x _ => match x with Ident _ => true | _ => false end
  | ArrayType _ elt => renders elt
  | StarExpr x => renders x
  | _ => true
  end.

Definition allRender (fl : FieldList) : bool :=
  forallb (fun fd => renders (ast.Type_ fd)) fl.

(** The function type has a result list, and all its parameter and result
    types render. *)
Definition completes (x : string * (FieldList * option FieldList)) : bool :=
  match snd (snd x) with
  | Some results => allRender (fst (snd x)) && allRender results
  | None => false
  end.

(** Pointers and arrays around a type, from the outside in. *)
Inductive Wrap : Type :=
| Pointer
| Slice (Len : option Node).

Fixpoint wrap (ws : list Wrap) (e : Node) : Node :=
  match ws with
  | [] => e
  | Pointer :: ws' => StarExpr (wrap ws' e)
  | Slice len :: ws' => ArrayType len (wrap ws' e)
  end.

Fixpoint wrapText (ws : list Wrap) : string :=
  match ws with
  | [] => ""
  | Pointer :: ws' => "*" ++ wrapText ws'
  | Slice _ :: ws' => "[]" ++ wrapText ws'
  end.

(** The four shapes exprToString has a case for. *)
Definition isSupportedShape (e : Node) : bool :=
  match e with
  | Ident _ | SelectorExpr _ _ | ArrayType _ _ | StarExpr _ => true
  | _ => false
  end.

(** The text [s] read along needsPackageRe with the groups [p] and [r]. *)
Definition matchesAs (s p r : string) : Prop :=
  s = p ++ r /\ allChars notAlnum p = true /\
  exists c t, r = String c t /\ isUpper c = true /\ allChars notDot t = true.

(** The alias-or-empty name Parse gives an import. *)
Definition importName (imp : ast.ImportSpec) : string :=
  match ImportName imp with Some n => n | None => "" end.

(** Surroundings as in [goodWorld] with the input and output files given by
    their paths, one file go.mod at [gomodAt] and nowhere else, and what
    modfile.Parse makes of it. *)
Definition moduleWorld (input output_ : filepath.path) (gomodAt : string)
    (parsed : result (option string)) : World :=
  {| ParseFile := fun _ => Success getUserFile;
     Unquote := fun s => Success (substring 1 (String.length s - 2) s);
     Abs := fun name => if String.eqb name "db/querier.go" then Success input
                        else Success output_;
     IsRegular := fun name => String.eqb name gomodAt;
     ReadFile := fun name =>
                   if String.eqb name gomodAt then Success "module example.com/proj"
                   else Failure ("open " ++ name ++ ": no such file or directory");
     ModfileParse := fun _ _ => parsed;
     defaultTpl := "package {{.GenPackage}}";
     TemplateParse := fun _ => None;
     TemplateExecute := fun _ _ => Success "package mock";
     FormatSource := fun src => Success src;
     WriteFile := fun _ _ => None |}.


(** ** The monad and the folds *)

Lemma bind_assoc {A B C : Type} (m : outcome A) (k : A -> outcome B)
    (h : B -> outcome C) :
  (y <- (x <- m ;; k x) ;; h y) = (x <- m ;; y <- k x ;; h y).
Proof. destruct m; reflexivity. Qed.

Lemma bind_ret_r {A : Type} (m : outcome A) : (x <- m ;; Ret x) = m.
Proof. destruct m; reflexivity. Qed.

Lemma bind_ext {A B : Type} (m : outcome A) (k k' : A -> outcome B) :
  (forall a, k a = k' a) -> bind m k = bind m k'.
Proof. intros H; destruct m; simpl; auto. Qed.

Lemma foldM_app {A S : Type} (step : A -> S -> outcome S) (l1 l2 : list A) (s : S) :
  foldM step (l1 ++ l2)%list s = (s' <- foldM step l1 s ;; foldM step l2 s').
Proof.
  revert s; induction l1 as [|x l1 IH]; intros s; simpl.
  - reflexivity.
  - rewrite bind_assoc. apply bind_ext; intros a; apply IH.
Qed.

Lemma mapM_length {A B : Type} (f : A -> outcome B) (l : list A) (r : list B) :
  mapM f l = Ret r -> length r = length l.
Proof.
  revert r; induction l as [|x l IH]; intros r; simpl.
  - intros H; inversion H; reflexivity.
  - destruct (f x) as [y| | |]; simpl; try discriminate.
    destruct (mapM f l) as [ys| | |]; simpl; try discriminate.
    intros H; inversion H; simpl; f_equal; apply IH; reflexivity.
Qed.

Lemma mapM_total {A B : Type} (f : A -> outcome B) (l : list A) :
  forallb (fun x => isRet (f x)) l = true -> exists r, mapM f l = Ret r.
Proof.
  induction l as [|x l IH]; simpl; intros H.
  - eexists; reflexivity.
  - apply andb_true_iff in H as [Hx Hl].
    destruct (f x) as [y| | |]; try discriminate.
    destruct (IH Hl) as [r ->]. eexists; reflexivity.
Qed.

(** ** ast.Walk against the forest below a node *)

Section Forest.
Variable S : Type.
Variable f : option Node -> S -> outcome (bool * S).
(** [T w l]: the walk [w] over the forest [l] does what is wanted. *)
Variable T : (S -> outcome S) -> list Node -> Prop.
Hypothesis T_nil : T (@Ret S) [].
Hypothesis T_seq :
  forall w1 w2 l1 l2, T w1 l1 -> T w2 l2 ->
    T (fun s => s1 <- w1 s ;; w2 s1) (l1 ++ l2)%list.
Hypothesis T_visit : forall n w l, T w l -> T (visit f n w) (n :: l).

Lemma T_foldM {A : Type} (w : A -> S -> outcome S) (pre : A -> list Node)
    (l : list A) :
  Forall (fun x => T (w x) (pre x)) l -> T (foldM w l) (flat_map pre l).
Proof.
  induction 1 as [|x l Hx _ IH]; simpl.
  - exact T_nil.
  - exact (T_seq Hx IH).
Qed.

Lemma T_opt {A : Type} (w : A -> S -> outcome S) (pre : A -> list Node)
    (o : option A) :
  OptionAll (fun x => T (w x) (pre x)) o -> T (walkOpt w o) (optForest pre o).
Proof.
  destruct o as [x|]; simpl; intros H.
  - exact H.
  - exact T_nil.
Qed.

Lemma T_idents (names : list string) :
  T (foldM (walkIdent f) names) (map Ident names).
Proof.
  induction names as [|nm names IH]; simpl.
  - exact T_nil.
  - apply (T_seq (w1 := walkIdent f nm) (w2 := foldM (walkIdent f) names)
                 (l1 := [Ident nm]) (l2 := map Ident names)).
    + apply T_visit, T_nil.
    + exact IH.
Qed.

Lemma T_fieldList (fl : FieldList) :
  Forall (fun fd => T (walkFieldChildren f fd) (descendantsField fd)) fl ->
  T (WalkFieldList f fl) (preorderFieldList fl).
Proof.
  intros H. apply T_visit.
  apply (T_foldM (WalkField f) preorderField).
  eapply Forall_impl; [|exact H]. intros fd Hfd. apply T_visit, Hfd.
Qed.

Lemma T_optFieldList (o : option FieldList) :
  OptionAll (Forall (fun fd => T (walkFieldChildren f fd) (descendantsField fd))) o ->
  T (walkOpt (WalkFieldList f) o) (optForest preorderFieldList o).
Proof.
  intros H. apply T_opt. destruct o; simpl in *; auto using T_fieldList.
Qed.

Lemma walkChildren_forest :
  forall n, T (walkChildren f n) (descendants n).
Proof.
  apply (@Node_induction
           (fun n => T (walkChildren f n) (descendants n))
           (fun fd => T (walkFieldChildren f fd) (descendantsField fd))).
  - intros name. exact T_nil.
  - intros x sel IH.
    apply (T_seq (w1 := Walk f x) (w2 := walkIdent f sel)
                 (l1 := preorder x) (l2 := [Ident sel])).
    + apply T_visit, IH.
    + apply T_visit, T_nil.
  - intros x IH. apply (T_visit x IH).
  - intros len elt Hlen IH.
    apply (T_seq (w1 := walkOpt (Walk f) len) (w2 := Walk f elt)
                 (l1 := optForest preorder len) (l2 := preorder elt)).
    + apply T_opt. destruct len; simpl in *; [apply T_visit, Hlen | exact I].
    + apply T_visit, IH.
  - intros fl H. apply (T_fieldList H).
  - intros tps ps rs Htps Hps Hrs.
    apply (T_seq (w1 := walkOpt (WalkFieldList f) tps)
                 (w2 := fun s => s2 <- WalkFieldList f ps s ;;
                                 walkOpt (WalkFieldList f) rs s2)
                 (l1 := optForest preorderFieldList tps)
                 (l2 := (preorderFieldList ps ++ optForest preorderFieldList rs)%list)).
    + apply (T_optFieldList _ Htps).
    + apply T_seq; [apply (T_fieldList Hps) | apply (T_optFieldList _ Hrs)].
  - intros ms H. apply (T_fieldList H).
  - intros name tps ty Htps IH.
    apply (T_seq (w1 := walkIdent f name)
                 (w2 := fun s => s2 <- walkOpt (WalkFieldList f) tps s ;; Walk f ty s2)
                 (l1 := [Ident name])
                 (l2 := (optForest preorderFieldList tps ++ preorder ty)%list)).
    + apply T_visit, T_nil.
    + apply T_seq; [apply (T_optFieldList _ Htps) | apply T_visit, IH].
  - intros fl H.
    apply (T_foldM (WalkField f) preorderField).
    eapply Forall_impl; [|exact H]. intros fd Hfd. apply T_visit, Hfd.
  - intros fd H. exact H.
  - intros k cs H.
    apply (T_foldM (Walk f) preorder).
    eapply Forall_impl; [|exact H]. intros c Hc. apply T_visit, Hc.
  - intros names ty tag IH.
    apply (T_seq (w1 := foldM (walkIdent f) names)
                 (w2 := fun s => s2 <- Walk f ty s ;;
                                 walkOpt (fun _ : string => visit f BasicLit (@Ret S)) tag s2)
                 (l1 := map Ident names)
                 (l2 := (preorder ty ++ match tag with
                                        | Some _ => [BasicLit]
                                        | None => []
                                        end)%list)).
    + apply T_idents.
    + apply T_seq; [apply T_visit, IH|].
      destruct tag; simpl; [apply T_visit, T_nil | apply T_nil].
Qed.

Lemma Walk_forest (n : Node) : T (Walk f n) (preorder n).
Proof. apply T_visit, walkChildren_forest. Qed.
End Forest.

(** A function that always answers true makes ast.Inspect a fold over the
    nodes in preorder. *)
Section AlwaysTrue.
Variable S : Type.
Variable f : option Node -> S -> outcome (bool * S).
Variable step : Node -> S -> outcome S.
Hypothesis f_node : forall n s, f (Some n) s = (s' <- step n s ;; Ret (true, s')).
Hypothesis f_nil : forall s, f None s = Ret (true, s).

Lemma Inspect_foldM (n : Node) (s : S) :
  Inspect f n s = foldM step (preorder n) s.
Proof.
  unfold Inspect. revert s.
  apply (@Walk_forest S f (fun w l => forall s, w s = foldM step l s)).
  - reflexivity.
  - intros w1 w2 l1 l2 H1 H2 s. rewrite foldM_app, H1.
    apply bind_ext; exact H2.
  - intros m w l H s. unfold visit. rewrite f_node. simpl.
    destruct (step m s) as [s1| | |]; simpl; try reflexivity.
    rewrite H. destruct (foldM step l s1) as [s2| | |]; simpl; try reflexivity.
    rewrite f_nil. reflexivity.
Qed.
End AlwaysTrue.

(** ** The second traversal of Parse *)

Lemma collectFunc_node (pkg : string) (n : Node) (st : string * list Method) :
  collectFunc pkg (Some n) st = (s' <- collectStep pkg n st ;; Ret (true, s')).
Proof.
  destruct st as [fn ms]; destruct n; try reflexivity.
  unfold collectFunc, collectStep. cbn [fst snd].
  destruct (fields (Some Params) pkg); try reflexivity.
  cbn [bind]. destruct (fields Results pkg); reflexivity.
Qed.

Lemma collectFunc_nil (pkg : string) (st : string * list Method) :
  collectFunc pkg None st = Ret (true, st).
Proof. destruct st; reflexivity. Qed.

Lemma collectMethods_foldM (pkg : string) (q : Node) :
  collectMethods pkg q
  = (st <- foldM (collectStep pkg) (preorder q) ("", []) ;; Ret (snd st)).
Proof.
  unfold collectMethods.
  rewrite (Inspect_foldM (collectFunc pkg) (collectStep pkg)
             (collectFunc_node pkg) (collectFunc_nil pkg)).
  reflexivity.
Qed.

(** Each function-type node of the fold appends one record, every other node
    none. *)
Lemma foldM_collect_grows (pkg : string) (l : list Node) :
  forall fn ms st,
    foldM (collectStep pkg) l (fn, ms) = Ret st ->
    exists new, snd st = (ms ++ new)%list /\
                length new = length (filter isFuncType l).
Proof.
  induction l as [|n l IH]; intros fn ms st; simpl.
  - intros H; inversion H; subst. exists []. simpl. now rewrite app_nil_r.
  - destruct (collectStep pkg n (fn, ms)) as [[fn1 ms1]| | |] eqn:E;
      simpl; try discriminate.
    intros H. destruct (IH _ _ _ H) as (new & Hnew & Hlen).
    destruct n; cbn [collectStep fst snd] in E; cbn [filter isFuncType];
      try (inversion E; subst; exists new; split; [exact Hnew | exact Hlen]).
    destruct (fields (Some Params) pkg) as [i| | |]; cbn [bind] in E; try discriminate.
    destruct (fields Results pkg) as [o| | |]; cbn [bind] in E; try discriminate.
    inversion E; subst.
    eexists (_ :: new). split.
    + rewrite Hnew, <- app_assoc. reflexivity.
    + simpl. now rewrite Hlen.
Qed.

(** A forest without function type leaves methods as they are. *)
Lemma foldM_collect_quiet (pkg : string) (l : list Node) :
  forallb (fun c => negb (isFuncType c)) l = true ->
  forall fn ms, exists fn', foldM (collectStep pkg) l (fn, ms) = Ret (fn', ms).
Proof.
  induction l as [|n l IH]; simpl; intros H fn ms.
  - eexists; reflexivity.
  - apply andb_true_iff in H as [Hn Hl].
    destruct n; simpl in Hn |- *; try discriminate; apply (IH Hl).
Qed.

Lemma forallb_flat_map {A B : Type} (p : B -> bool) (g : A -> list B) (l : list A) :
  forallb (fun x => forallb p (g x)) l = true -> forallb p (flat_map g l) = true.
Proof.
  induction l as [|x l IH]; simpl; intros H; [reflexivity|].
  apply andb_true_iff in H as [Hx Hl].
  rewrite forallb_app, Hx. simpl. apply IH, Hl.
Qed.

Lemma idents_quiet (names : list string) :
  forallb (fun c => negb (isFuncType c)) (map Ident names) = true.
Proof. induction names; simpl; auto. Qed.

Lemma plain_fieldList_quiet (fl : ast.FieldList) :
  forallb plainField fl = true ->
  forallb (fun c => negb (isFuncType c)) (preorderFieldList fl) = true.
Proof.
  intros H. unfold preorderFieldList. simpl.
  apply forallb_flat_map.
  eapply forallb_forall. intros fd Hin.
  pose proof (proj1 (forallb_forall _ _) H fd Hin) as Hfd.
  unfold plainField in Hfd. apply andb_true_iff in Hfd as [Hq _].
  destruct fd as [names ty tag]. simpl in Hq |- *.
  rewrite forallb_app, idents_quiet. simpl.
  unfold noFuncType, preorder in Hq. simpl in Hq.
  apply andb_true_iff in Hq as [Hty Hdesc].
  rewrite forallb_app, Hty, Hdesc.
  destruct tag; reflexivity.
Qed.

Lemma plain_fields_total (pkg : string) (fl : ast.FieldList) :
  forallb plainField fl = true -> exists r, fields (Some fl) pkg = Ret r.
Proof.
  intros H. apply mapM_total.
  eapply forallb_forall. intros fd Hin.
  pose proof (proj1 (forallb_forall _ _) H fd Hin) as Hfd.
  unfold plainField in Hfd. apply andb_true_iff in Hfd as [_ Hr].
  unfold fieldOf. destruct (exprToString (ast.Type_ fd)); try discriminate.
  reflexivity.
Qed.

Lemma preorderField_declared (d : MethodDecl) :
  preorderField (entryField (Declared d))
  = FieldNode (entryField (Declared d))
      :: Ident (declName d)
      :: FuncType None (declParams d) (Some (declResults d))
      :: ((preorderFieldList (declParams d) ++ preorderFieldList (declResults d))
            ++ [])%list.
Proof. reflexivity. Qed.

Lemma declared_fold (pkg : string) (d : MethodDecl) :
  plainEntry (Declared d) = true ->
  forall fn ms, exists fn' m,
    foldM (collectStep pkg) (preorderField (entryField (Declared d))) (fn, ms)
    = Ret (fn', (ms ++ [m])%list)
    /\ extracted pkg d m.
Proof.
  intros H fn ms. simpl in H. apply andb_true_iff in H as [Hps Hrs].
  destruct (plain_fields_total pkg _ Hps) as [i Hi].
  destruct (plain_fields_total pkg _ Hrs) as [o Ho].
  assert (Hquiet : forallb (fun c => negb (isFuncType c))
                     ((preorderFieldList (declParams d)
                         ++ preorderFieldList (declResults d)) ++ [])%list = true).
  { rewrite !forallb_app, (plain_fieldList_quiet _ Hps), (plain_fieldList_quiet _ Hrs).
    reflexivity. }
  set (m := {| MethodName := declName d; Input := i; Output_ := o |}).
  destruct (foldM_collect_quiet pkg _ Hquiet (declName d) (ms ++ [m])%list)
    as [fn' Hfold].
  exists fn', m. split.
  - rewrite preorderField_declared.
    cbn [foldM collectStep bind fst snd]. rewrite Hi. cbn [bind]. rewrite Ho.
    cbn [bind]. exact Hfold.
  - repeat split; assumption.
Qed.

Lemma embedded_fold (pkg : string) (ty : Node) :
  plainEntry (Embedded ty) = true ->
  forall fn ms, exists fn',
    foldM (collectStep pkg) (preorderField (entryField (Embedded ty))) (fn, ms)
    = Ret (fn', ms).
Proof.
  intros H fn ms. apply foldM_collect_quiet.
  simpl in H |- *. unfold noFuncType, preorder in H. simpl in H.
  apply andb_true_iff in H as [Hty Hdesc].
  rewrite Hty, forallb_app, Hdesc. reflexivity.
Qed.

Lemma entries_fold (pkg : string) (es : list Entry) :
  forallb plainEntry es = true ->
  forall fn ms, exists fn' new,
    foldM (collectStep pkg) (flat_map preorderField (map entryField es)) (fn, ms)
    = Ret (fn', (ms ++ new)%list)
    /\ Forall2 (extracted pkg) (declaredOf es) new.
Proof.
  induction es as [|e es IH]; intros H fn ms.
  - exists fn, []. simpl. rewrite app_nil_r. split; constructor.
  - simpl in H. apply andb_true_iff in H as [He Hes].
    cbn [map flat_map]. destruct e as [d|ty].
    + destruct (declared_fold pkg d He fn ms) as (fn1 & m & Hm & Hext).
      destruct (IH Hes fn1 (ms ++ [m])%list) as (fn' & new & Hnew & Hall).
      exists fn', (m :: new). split.
      * rewrite foldM_app, Hm. cbn [bind]. rewrite Hnew, <- app_assoc. reflexivity.
      * simpl. constructor; assumption.
    + destruct (embedded_fold pkg ty He fn ms) as (fn1 & Hty).
      destruct (IH Hes fn1 ms) as (fn' & new & Hnew & Hall).
      exists fn', new. split.
      * rewrite foldM_app, Hty. cbn [bind]. exact Hnew.
      * exact Hall.
Qed.

Lemma Forall2_extracted_names (pkg : string) (ds : list MethodDecl) (ms : list Method) :
  Forall2 (extracted pkg) ds ms ->
  length ms = length ds /\ map MethodName ms = map declName ds.
Proof.
  induction 1 as [|d m ds ms (Hn & _) _ [IHl IHn]]; simpl.
  - split; reflexivity.
  - split; congruence.
Qed.

(** ** The first traversal of Parse *)

Lemma findQuerier_forest (n : Node) :
  forall q, exists q',
    Inspect findQuerierFunc n q = Ret q' /\
    (existsb isQuerierSpec (preorder n) = true -> isFound q') /\
    (existsb isQuerierSpec (preorder n) = false -> q' = q).
Proof.
  unfold Inspect.
  apply (@Walk_forest (option Node) findQuerierFunc
           (fun w l => forall q, exists q',
                w q = Ret q' /\
                (existsb isQuerierSpec l = true -> isFound q') /\
                (existsb isQuerierSpec l = false -> q' = q))).
  - intros q. exists q. simpl. split; [reflexivity|]. split; [discriminate | reflexivity].
  - intros w1 w2 l1 l2 H1 H2 q.
    destruct (H1 q) as (q1 & E1 & F1 & N1).
    destruct (H2 q1) as (q2 & E2 & F2 & N2).
    exists q2. rewrite E1. cbn [bind]. rewrite existsb_app. split; [exact E2|].
    destruct (existsb isQuerierSpec l1); destruct (existsb isQuerierSpec l2);
      simpl; split; intros H; try discriminate; auto.
    + rewrite (N2 eq_refl). auto.
    + rewrite (N2 eq_refl). auto.
  - intros m w l H q. unfold visit. destruct (isQuerierSpec m) eqn:E.
    + destruct m; try discriminate. simpl in E. simpl. rewrite E. simpl.
      eexists. split; [reflexivity|]. split.
      * intros _. exact E.
      * discriminate.
    + assert (Hm : findQuerierFunc (Some m) q = Ret (true, q)).
      { destruct m; try reflexivity. simpl in E |- *. rewrite E. reflexivity. }
      rewrite Hm. cbn [bind fst snd].
      destruct (H q) as (q' & Ew & F & N). rewrite Ew. cbn [bind].
      exists q'. split; [reflexivity|]. simpl. rewrite E. simpl. auto.
Qed.

Lemma findQuerier_none (file : ast.File) :
  containsQuerier (FileNode file) = false -> findQuerier file = Ret None.
Proof.
  intros H. destruct (findQuerier_forest (FileNode file) None) as (q & E & _ & N).
  unfold findQuerier. rewrite E. f_equal. apply N, H.
Qed.

Lemma findQuerier_some (file : ast.File) :
  containsQuerier (FileNode file) = true ->
  exists q, findQuerier file = Ret (Some q) /\ isQuerierSpec q = true.
Proof.
  intros H. destruct (findQuerier_forest (FileNode file) None) as (q & E & F & _).
  specialize (F H). destruct q as [q|]; [|contradiction].
  exists q. split; assumption.
Qed.

(** ** Which calls can hand back which errors *)

Lemma returnsOrPanics_bind {A B : Type} (m : outcome A) (k : A -> outcome B) :
  returnsOrPanics m -> (forall a, returnsOrPanics (k a)) -> returnsOrPanics (bind m k).
Proof. destruct m; simpl; auto. Qed.

Lemma returnsOrPanics_notErr {A : Type} (m : outcome A) :
  returnsOrPanics m -> notErrNoQuerier m.
Proof. destruct m; simpl; intros H; try contradiction; discriminate. Qed.

Lemma notErrNoQuerier_bind {A B : Type} (m : outcome A) (k : A -> outcome B) :
  notErrNoQuerier m -> (forall a, notErrNoQuerier (k a)) -> notErrNoQuerier (bind m k).
Proof.
  unfold notErrNoQuerier. destruct m; simpl; auto; intros H _; congruence.
Qed.

Lemma returnsOrPanics_mapM {A B : Type} (f : A -> outcome B) (l : list A) :
  (forall x, returnsOrPanics (f x)) -> returnsOrPanics (mapM f l).
Proof.
  intros H. induction l as [|x l IH]; simpl; [exact I|].
  apply returnsOrPanics_bind; [apply H|]. intros y.
  apply returnsOrPanics_bind; [exact IH|]. intros ys. exact I.
Qed.

Lemma notErrNoQuerier_mapM {A B : Type} (f : A -> outcome B) (l : list A) :
  (forall x, notErrNoQuerier (f x)) -> notErrNoQuerier (mapM f l).
Proof.
  intros H. induction l as [|x l IH]; simpl; [discriminate|].
  apply notErrNoQuerier_bind; [apply H|]. intros y.
  apply notErrNoQuerier_bind; [exact IH|]. intros ys. discriminate.
Qed.

Lemma returnsOrPanics_foldM {A S : Type} (step : A -> S -> outcome S) (l : list A) :
  (forall x s, returnsOrPanics (step x s)) -> forall s, returnsOrPanics (foldM step l s).
Proof.
  intros H. induction l as [|x l IH]; intros s; simpl; [exact I|].
  apply returnsOrPanics_bind; [apply H | exact IH].
Qed.

Lemma exprToString_returnsOrPanics (expr : Node) : returnsOrPanics (exprToString expr).
Proof.
  revert expr.
  apply (@Node_induction (fun e => returnsOrPanics (exprToString e)) (fun _ => True));
    simpl; intros; auto.
  - destruct x; exact I.
  - apply returnsOrPanics_bind; [assumption | intros; exact I].
  - apply returnsOrPanics_bind; [assumption | intros; exact I].
Qed.

Lemma fields_returnsOrPanics (l : option FieldList) (pkg : string) :
  returnsOrPanics (fields l pkg).
Proof.
  destruct l as [l|]; simpl; [|exact I].
  apply returnsOrPanics_mapM. intros fd. unfold fieldOf.
  apply returnsOrPanics_bind; [apply exprToString_returnsOrPanics | intros; exact I].
Qed.

Lemma collectMethods_returnsOrPanics (pkg : string) (q : Node) :
  returnsOrPanics (collectMethods pkg q).
Proof.
  rewrite collectMethods_foldM.
  apply returnsOrPanics_bind; [|intros; exact I].
  apply returnsOrPanics_foldM. intros n st. destruct n; try exact I.
  unfold collectStep.
  apply returnsOrPanics_bind; [apply fields_returnsOrPanics|]. intros i.
  apply returnsOrPanics_bind; [apply fields_returnsOrPanics|]. intros o. exact I.
Qed.

Lemma importOf_notErrNoQuerier (w : World) (imp : ast.ImportSpec) :
  notErrNoQuerier (importOf w imp).
Proof. unfold importOf. destruct (Unquote w _); discriminate. Qed.

Lemma setOutputPackage_notErrNoQuerier (w : World) (out : Output) (opts : Opts) :
  notErrNoQuerier (setOutputPackage w out opts).
Proof.
  unfold setOutputPackage. destruct (negb _); [discriminate|].
  destruct (Abs w _); discriminate.
Qed.

Lemma findOutputModule_notErrNoQuerier (w : World) (out : Output) (opts : Opts) :
  notErrNoQuerier (findOutputModule w out opts).
Proof.
  unfold findOutputModule. destruct (Abs w _); [|discriminate].
  destruct (ReadFile w _); [|discriminate].
  destruct (ModfileParse w _ _) as [[m|]|]; discriminate.
Qed.

Lemma Parse_no_querier (w : World) (opts : Opts) (file : ast.File) :
  ParseFile w (InputFile opts) = Success file ->
  containsQuerier (FileNode file) = false ->
  Parse w opts = Err ErrNoQuerier.
Proof.
  intros Hp Hc. unfold Parse. rewrite Hp, (findQuerier_none _ Hc). reflexivity.
Qed.

Lemma Parse_querier (w : World) (opts : Opts) (file : ast.File) :
  ParseFile w (InputFile opts) = Success file ->
  containsQuerier (FileNode file) = true ->
  Parse w opts <> Err ErrNoQuerier.
Proof.
  intros Hp Hc. unfold Parse. rewrite Hp.
  destruct (findQuerier_some _ Hc) as (q & -> & _). cbn [bind].
  apply notErrNoQuerier_bind.
  - apply returnsOrPanics_notErr, collectMethods_returnsOrPanics.
  - intros ms. apply notErrNoQuerier_bind.
    + apply notErrNoQuerier_mapM, importOf_notErrNoQuerier.
    + intros imps. apply notErrNoQuerier_bind.
      * apply setOutputPackage_notErrNoQuerier.
      * intros out. apply findOutputModule_notErrNoQuerier.
Qed.

(** ** needsPackageRe *)

Unset Implicit Arguments.

Lemma append_assoc (a b c : string) : (a ++ b) ++ c = a ++ b ++ c.
Proof. induction a as [|x a IH]; simpl; [reflexivity | now rewrite IH]. Qed.

Lemma append_empty_r (a : string) : a ++ "" = a.
Proof. induction a as [|x a IH]; simpl; [reflexivity | now rewrite IH]. Qed.

Lemma isUpper_isAlnum (c : ascii) : isUpper c = true -> isAlnum c = true.
Proof. unfold isAlnum. intros ->. reflexivity. Qed.

Lemma isLower_isAlnum (c : ascii) : isLower c = true -> isAlnum c = true.
Proof. unfold isAlnum. intros ->. now rewrite orb_true_r. Qed.

Lemma isLower_not_isUpper (c : ascii) : isLower c = true -> isUpper c = false.
Proof.
  unfold isLower, isUpper, inRange. intros H.
  apply andb_true_iff in H as [H1 H2]. apply Nat.leb_le in H1.
  apply andb_false_iff. right. apply Nat.leb_gt. lia.
Qed.

Lemma spanNonAlnum_app (p : string) (c : ascii) (t : string) :
  allChars notAlnum p = true -> isAlnum c = true ->
  spanNonAlnum (p ++ String c t) = (p, String c t).
Proof.
  intros Hp Hc. induction p as [|x p IH]; simpl.
  - rewrite Hc. reflexivity.
  - simpl in Hp. apply andb_true_iff in Hp as [Hx Hp].
    unfold notAlnum in Hx. apply negb_true_iff in Hx. rewrite Hx, (IH Hp).
    reflexivity.
Qed.

Lemma spanNonAlnum_split (s p r : string) :
  spanNonAlnum s = (p, r) -> s = p ++ r /\ allChars notAlnum p = true.
Proof.
  revert p r. induction s as [|x s IH]; simpl; intros p r H.
  - inversion H. split; reflexivity.
  - destruct (isAlnum x) eqn:Hx.
    + inversion H. split; reflexivity.
    + destruct (spanNonAlnum s) as [p' r'] eqn:E. inversion H; subst.
      destruct (IH _ _ eq_refl) as [Hs Hp]. split.
      * simpl. now rewrite <- Hs.
      * simpl. unfold notAlnum at 1. rewrite Hx. exact Hp.
Qed.

(** The groups are those of the one way to read the text along the
    expression: a run of bytes outside A-Z, a-z, 0-9, then a byte in A-Z,
    then bytes other than the dot, up to the end. *)
Lemma needsPackageRe_spec (s p r : string) :
  needsPackageRe s = Some (p, r) <->
  s = p ++ r /\ allChars notAlnum p = true /\
  exists c t, r = String c t /\ isUpper c = true /\ allChars notDot t = true.
Proof.
  unfold needsPackageRe. split.
  - destruct (spanNonAlnum s) as [p' r'] eqn:E.
    destruct (spanNonAlnum_split _ _ _ E) as [Hs Hp].
    destruct r' as [|c t]; [discriminate|].
    destruct (isUpper c && allChars (fun x => negb (isDot x)) t) eqn:Hc; [|discriminate].
    intros H; inversion H; subst. apply andb_true_iff in Hc as [Hu Hd].
    repeat split; auto. exists c, t. auto.
  - intros (Hs & Hp & c & t & Hr & Hu & Hd). subst.
    rewrite (spanNonAlnum_app _ _ _ Hp (isUpper_isAlnum _ Hu)), Hu.
    unfold notDot in Hd. rewrite Hd. reflexivity.
Qed.

Lemma needsPackageRe_prefixed (pre name : string) :
  allChars notAlnum pre = true -> upperInitial name = true ->
  allChars notDot name = true ->
  needsPackageRe (pre ++ name) = Some (pre, name).
Proof.
  intros Hpre Hu Hd. apply needsPackageRe_spec.
  destruct name as [|c t]; [discriminate|]. simpl in Hu, Hd.
  apply andb_true_iff in Hd as [_ Hd].
  repeat split; auto. exists c, t. auto.
Qed.

Lemma needsPackageRe_lowerInitial (name : string) :
  lowerInitial name = true -> needsPackageRe name = None.
Proof.
  destruct name as [|c t]; [discriminate|]. simpl. intros Hl.
  unfold needsPackageRe. simpl.
  rewrite (isLower_isAlnum _ Hl), (isLower_not_isUpper _ Hl). reflexivity.
Qed.

Lemma allChars_notDot_dot (a b : string) :
  allChars (fun x => negb (isDot x)) (a ++ String "." b) = false.
Proof.
  induction a as [|x a IH]; simpl; [reflexivity|].
  rewrite IH. apply andb_false_r.
Qed.

Lemma needsPackageRe_skip (c : ascii) (s : string) :
  isAlnum c = false -> needsPackageRe s = None -> needsPackageRe (String c s) = None.
Proof.
  unfold needsPackageRe. simpl. intros ->.
  destruct (spanNonAlnum s) as [p r]. destruct r as [|x t]; [reflexivity|].
  destruct (isUpper x && _); [discriminate | reflexivity].
Qed.

(** A selector whose qualifier holds a letter or digit of ASCII never
    matches: the dot comes after the place where the second group starts. *)
Lemma needsPackageRe_qualified (q sel : string) :
  anyChar isAlnum q = true -> needsPackageRe (q ++ "." ++ sel) = None.
Proof.
  induction q as [|c q IH]; simpl; [discriminate|]. intros H.
  destruct (isAlnum c) eqn:Hc.
  - unfold needsPackageRe. simpl. rewrite Hc.
    rewrite allChars_notDot_dot, andb_false_r. reflexivity.
  - simpl in H. apply needsPackageRe_skip; auto.
Qed.

(** ** Paths *)






Lemma filepath_eqb_eq (p q : filepath.path) :
  filepath.eqb p q = true -> p = q.
Proof.
  revert q. induction p as [|a p IH]; intros [|b q]; simpl; try discriminate.
  - reflexivity.
  - intros H. apply andb_true_iff in H as [Hab Hpq].
    apply String.eqb_eq in Hab. subst. f_equal. apply IH, Hpq.
Qed.

Lemma filepath_eqb_Dir_last (p : filepath.path) (x : string) :
  filepath.eqb (filepath.Dir (p ++ [x])%list) (p ++ [x])%list = false.
Proof.
  unfold filepath.Dir. rewrite removelast_last.
  destruct (filepath.eqb p (p ++ [x])%list) eqn:E; [|reflexivity].
  exfalso. apply filepath_eqb_eq in E. apply (f_equal (@length string)) in E.
  rewrite length_app in E. simpl in E. lia.
Qed.

Lemma findModuleRootLoop_nearest (w : World) (r rest : filepath.path) :
  IsRegular w (filepath.Join (filepath.toString r) "go.mod") = true ->
  (forall rest1 rest2, rest = (rest1 ++ rest2)%list -> rest1 <> [] ->
     IsRegular w (filepath.Join (filepath.toString (r ++ rest1)%list) "go.mod") = false) ->
  forall n, length rest <= n ->
    findModuleRootLoop w (S n) (r ++ rest)%list = filepath.toString r.
Proof.
  intros Hr. induction rest as [|x rest IH] using rev_ind; intros Hnear n Hn.
  - rewrite app_nil_r. simpl. rewrite Hr. reflexivity.
  - rewrite length_app in Hn. simpl in Hn.
    destruct n as [|n]; [lia|].
    cbn [findModuleRootLoop].
    rewrite (Hnear (rest ++ [x])%list [] (eq_sym (app_nil_r _))).
    2:{ destruct rest; discriminate. }
    rewrite app_assoc, filepath_eqb_Dir_last.
    unfold filepath.Dir. rewrite removelast_last.
    apply IH; [|lia].
    intros rest1 rest2 E Hne. apply (Hnear rest1 (rest2 ++ [x])%list); [|exact Hne].
    rewrite E, app_assoc. reflexivity.
Qed.

Lemma findModuleRootLoop_none (w : World) (n : nat) :
  forall dir,
    (forall r rest, dir = (r ++ rest)%list ->
       IsRegular w (filepath.Join (filepath.toString r) "go.mod") = false) ->
    findModuleRootLoop w n dir = "".
Proof.
  induction n as [|n IH]; intros dir H; simpl; [reflexivity|].
  rewrite (H dir [] (eq_sym (app_nil_r _))).
  destruct (filepath.eqb (filepath.Dir dir) dir); [reflexivity|].
  apply IH. intros r rest E.
  induction dir as [|x dir _] using rev_ind.
  - simpl in E. apply (H r rest). exact E.
  - unfold filepath.Dir in E. rewrite removelast_last in E.
    apply (H r (rest ++ [x])%list). rewrite E, app_assoc. reflexivity.
Qed.


(** ** The driver *)

Lemma run_Parse_not_Ret (w : World) (cl : CommandLine) (arg0 : string)
    (rest : list string) :
  Args cl = arg0 :: rest ->
  (forall o, Parse w (optsOf cl arg0) <> Ret o) ->
  written (main w cl) = [] /\ exitStatus (main w cl) <> 0.
Proof.
  intros Ha Hp. unfold main, run. rewrite Ha.
  destruct (Parse w (optsOf cl arg0)) as [o|e|e|m]; simpl.
  - exfalso. apply (Hp o). reflexivity.
  - split; [reflexivity | discriminate].
  - split; [reflexivity | discriminate].
  - split; [reflexivity | discriminate].
Qed.

Lemma main_Parse_Err (w : World) (cl : CommandLine) (arg0 : string)
    (rest : list string) (e : error) :
  Args cl = arg0 :: rest ->
  Parse w (optsOf cl arg0) = Err e ->
  run w cl = ([], Err e) /\
  main w cl = {| exitStatus := 1; logged := [errorString e]; written := [] |}.
Proof.
  intros Ha Hp. unfold main, run. rewrite Ha, Hp. simpl. split; reflexivity.
Qed.




Lemma In_containsQuerier (n : Node) (tps : option FieldList) (ty : Node) :
  In (TypeSpec "Querier" tps ty) (preorder n) -> containsQuerier n = true.
Proof.
  intros H. unfold containsQuerier. apply existsb_exists.
  exists (TypeSpec "Querier" tps ty). split; [exact H | reflexivity].
Qed.

(** ** The scenario of the specification *)

Example collectMethods_getUser :
  collectMethods "db" (interfaceDecl [Declared getUser])
  = Ret [ {| MethodName := "GetUser";
             Input := [ {| FieldName := "ctx"; FieldType := "context.Context" |};
                        {| FieldName := "id"; FieldType := "int" |} ];
             Output_ := [ {| FieldName := ""; FieldType := "*db.User" |};
                          {| FieldName := ""; FieldType := "error" |} ] |} ].
Proof. reflexivity. Qed.

Example main_getUser :
  main (goodWorld [GenDecl [interfaceDecl [Declared getUser]]]) sampleCommandLine
  = {| exitStatus := 0; logged := [];
       written := [("mock/mock.go", "package mock")] |}.
Proof. reflexivity. Qed.

(** ** The properties of the specification *)

(** C1.  The specification: a parameter list that declares several names with one
    type, such as (a, b int), gives one Field record per name.  The code:
    fields appends one record per entry of the list and reads Names[0]
    only, so (a, b int) gives the single record a of type int, and the
    method Add(a, b int) error is extracted with one input.  In general the
    records are as many as the entries, whatever the number of names. *)
Theorem C1_shared_type_gives_one_field :
  fields (Some [mkField ["a"; "b"] (Ident "int") None]) "db"
  = Ret [ {| FieldName := "a"; FieldType := "int" |} ]
  /\ collectMethods "db" addQuerier
     = Ret [ {| MethodName := "Add";
                Input := [ {| FieldName := "a"; FieldType := "int" |} ];
                Output_ := [ {| FieldName := ""; FieldType := "error" |} ] |} ]
  /\ (forall l pkg r, fields (Some l) pkg = Ret r -> length r = length l).
Proof.
  split; [reflexivity|]. split; [reflexivity|].
  intros l pkg r H. exact (mapM_length _ _ H).
Qed.

(** C2.  The specification: for a method without parameters or without results the
    extraction succeeds and Input, respectively Output, is an empty
    sequence.  The code: an empty parameter list gives the empty sequence,
    but a method written without results has a nil Results, fields reads
    its List, and the extraction panics; the process ends with status 2 and
    writes nothing. *)
Theorem C2_method_without_results_panics :
  (forall pkg, fields (Some []) pkg = Ret [])
  /\ (forall pkg, fields None pkg = Panic nilDereference)
  /\ collectMethods "db" closeQuerier = Panic nilDereference
  /\ main (goodWorld [GenDecl [closeQuerier]]) sampleCommandLine
     = {| exitStatus := 2; logged := ["panic: " ++ nilDereference]; written := [] |}.
Proof. repeat split; reflexivity. Qed.

(** C6.  The specification: a type expression outside the four supported forms is
    rendered as the sentinel, and the sibling methods are still extracted.
    The code: exprToString gives the sentinel for every such expression,
    but for the parameter cb func() the traversal goes on into the function
    type, takes it for a method, reads the List of its nil Results, and
    panics: neither Notify nor its sibling Bar is extracted. *)
Theorem C6_sentinel_then_panic_in_function_type :
  (forall expr,
      match expr with
      | Ident _ | SelectorExpr _ _ | ArrayType _ _ | StarExpr _ => True
      | _ => exprToString expr = Ret ("<error_unhandled_" ++ typeName expr ++ ">")
      end)
  /\ exprToString (FuncType None [] None) = Ret "<error_unhandled_*ast.FuncType>"
  /\ exprToString (ChanType (Ident "int")) = Ret "<error_unhandled_*ast.ChanType>"
  /\ collectMethods "db" notifyQuerier = Panic nilDereference.
Proof.
  split; [|repeat split; reflexivity].
  intros expr; destruct expr; try exact I; reflexivity.
Qed.

(** C9.  Whenever the second traversal of Parse completes, it has appended
    one Method record for each function-type node anywhere inside the
    declaration it walked; and for the interface with the methods
    Each(cb func(int) error) error and Bar() error the records outnumber the
    methods the interface declares. *)
Theorem C9_one_record_per_function_type (pkg : string) (querier : Node)
    (ms : list Method) :
  collectMethods pkg querier = Ret ms ->
  length ms = countFuncType querier
  /\ exists ms', collectMethods pkg eachQuerier = Ret ms'
                 /\ length (declaredMethods eachQuerier) < length ms'.
Proof.
  intros H. split.
  - rewrite collectMethods_foldM in H.
    destruct (foldM (collectStep pkg) (preorder querier) ("", [])) as [st| | |] eqn:E;
      try discriminate.
    simpl in H. inversion H; subst.
    destruct (foldM_collect_grows pkg _ _ _ E) as (new & Hnew & Hlen).
    rewrite Hnew. simpl. exact Hlen.
  - exists eachMethods. split; [reflexivity | simpl; lia].
Qed.

Lemma C9_witness :
  length [watchMethod] = countFuncType (interfaceDecl [Declared watch]).
Proof.
  exact (proj1 (C9_one_record_per_function_type "db"
                  (interfaceDecl [Declared watch]) [watchMethod] eq_refl)).
Defined.



(** C5.  When the parsed file holds no declaration of a type named Querier,
    Parse returns the error value ErrNoQuerier, run returns it without
    calling os.WriteFile, and the process prints its message and exits with
    status 1. *)
Theorem C5_no_querier_no_output (w : World) (cl : CommandLine) (arg0 : string)
    (rest : list string) (file : ast.File) :
  Args cl = arg0 :: rest ->
  ParseFile w arg0 = Success file ->
  containsQuerier (FileNode file) = false ->
  Parse w (optsOf cl arg0) = Err ErrNoQuerier
  /\ run w cl = ([], Err ErrNoQuerier)
  /\ main w cl = {| exitStatus := 1; logged := ["no Querier found"]; written := [] |}.
Proof.
  intros Ha Hp Hc.
  assert (HP : Parse w (optsOf cl arg0) = Err ErrNoQuerier).
  { apply (@Parse_no_querier w (optsOf cl arg0) file); assumption. }
  split; [exact HP|]. exact (main_Parse_Err w cl arg0 rest ErrNoQuerier Ha HP).
Qed.

Lemma C5_witness :
  Parse (goodWorld [GenDecl [TypeSpec "Queries" None (InterfaceType [])]]) sampleOpts
  = Err ErrNoQuerier
  /\ run (goodWorld [GenDecl [TypeSpec "Queries" None (InterfaceType [])]])
       sampleCommandLine
     = ([], Err ErrNoQuerier)
  /\ main (goodWorld [GenDecl [TypeSpec "Queries" None (InterfaceType [])]])
       sampleCommandLine
     = {| exitStatus := 1; logged := ["no Querier found"]; written := [] |}.
Proof.
  exact (C5_no_querier_no_output
           (goodWorld [GenDecl [TypeSpec "Queries" None (InterfaceType [])]])
           sampleCommandLine "db/querier.go" []
           (fileOf [GenDecl [TypeSpec "Queries" None (InterfaceType [])]])
           eq_refl eq_refl eq_refl).
Defined.

(** C10.  For a file the parser accepted, Parse returns ErrNoQuerier exactly
    when no type declaration named Querier occurs anywhere in the file; a
    declaration of that name is taken as the target whatever its type, an
    interface or not, and then Parse does not return this error. *)
Theorem C10_ErrNoQuerier_iff_no_declaration (w : World) (opts : Opts)
    (file : ast.File) :
  ParseFile w (InputFile opts) = Success file ->
  (Parse w opts = Err ErrNoQuerier <-> containsQuerier (FileNode file) = false)
  /\ (forall tps ty,
        In (TypeSpec "Querier" tps ty) (preorder (FileNode file)) ->
        (exists q, findQuerier file = Ret (Some q) /\ isQuerierSpec q = true)
        /\ Parse w opts <> Err ErrNoQuerier).
Proof.
  intros Hp. split.
  - split.
    + intros HP. destruct (containsQuerier (FileNode file)) eqn:Hc; [|reflexivity].
      exfalso. exact (@Parse_querier w opts file Hp Hc HP).
    + apply Parse_no_querier, Hp.
  - intros tps ty Hin.
    pose proof (In_containsQuerier _ tps ty Hin) as Hc. split.
    + apply findQuerier_some, Hc.
    + exact (@Parse_querier w opts file Hp Hc).
Qed.

Lemma C10_witness :
  (Parse (goodWorld [nestedStructQuerier]) sampleOpts = Err ErrNoQuerier
   <-> containsQuerier (FileNode (fileOf [nestedStructQuerier])) = false)
  /\ (forall tps ty,
        In (TypeSpec "Querier" tps ty)
           (preorder (FileNode (fileOf [nestedStructQuerier]))) ->
        (exists q, findQuerier (fileOf [nestedStructQuerier]) = Ret (Some q)
                   /\ isQuerierSpec q = true)
        /\ Parse (goodWorld [nestedStructQuerier]) sampleOpts <> Err ErrNoQuerier).
Proof.
  exact (C10_ErrNoQuerier_iff_no_declaration
           (goodWorld [nestedStructQuerier]) sampleOpts
           (fileOf [nestedStructQuerier]) eq_refl).
Defined.

Example Parse_nestedStructQuerier :
  In (TypeSpec "Querier" None (StructType []))
     (preorder (FileNode (fileOf [nestedStructQuerier])))
  /\ Parse (goodWorld [nestedStructQuerier]) sampleOpts
     = Ret {| GenPackage := "mock"; ModelPath := "example.com/proj/db";
              Package := "db"; Struct := "Mocker";
              Imports := [ {| Path := "context"; Name := "" |} ];
              Methods := [] |}.
Proof. split; [simpl; tauto | reflexivity]. Qed.

(** C7, as amended.  For an interface whose entries are methods, each with a
    name, parameters and a result list that is present, and embedded types,
    where no parameter, result or embedded type holds a function type and
    every parameter and result type is rendered without panic, the second
    traversal of Parse gives exactly one Method record per declared method,
    in the order of declaration, named as declared, with the fields of its
    parameters as Input and of its results as Output. *)
Theorem C7_declared_methods_in_order (pkg : string) (es : list Entry) :
  forallb plainEntry es = true ->
  exists ms,
    collectMethods pkg (interfaceDecl es) = Ret ms
    /\ length ms = length (declaredOf es)
    /\ map MethodName ms = map declName (declaredOf es)
    /\ Forall2 (extracted pkg) (declaredOf es) ms.
Proof.
  intros H.
  destruct (@entries_fold pkg es H "Querier" []) as (fn' & new & Hfold & Hall).
  exists new. split.
  - rewrite collectMethods_foldM.
    change (preorder (interfaceDecl es))
      with ([interfaceDecl es; Ident "Querier";
             InterfaceType (map entryField es);
             FieldListNode (map entryField es)]
              ++ flat_map preorderField (map entryField es))%list.
    rewrite foldM_app. cbn [foldM collectStep interfaceDecl bind fst snd].
    rewrite Hfold. reflexivity.
  - destruct (@Forall2_extracted_names pkg _ _ Hall) as [Hl Hn]. auto.
Qed.

Lemma C7_witness :
  exists ms,
    collectMethods "db"
      (interfaceDecl [Declared getUser;
                      Embedded (SelectorExpr (Ident "io") "Closer");
                      Declared watch]) = Ret ms
    /\ length ms = 2
    /\ map MethodName ms = ["GetUser"; "Watch"]
    /\ Forall2 (extracted "db") [getUser; watch] ms.
Proof.
  exact (C7_declared_methods_in_order "db"
           [Declared getUser; Embedded (SelectorExpr (Ident "io") "Closer");
            Declared watch] eq_refl).
Defined.

(** C7 as stated fails: the interface with the two methods
    Each(cb func(int) error) error and Bar() error gives three records, the
    second of them named after the parameter cb. *)
Lemma C7_counterexample :
  length (declaredMethods eachQuerier) = 2
  /\ collectMethods "db" eachQuerier = Ret eachMethods
  /\ length eachMethods = 3
  /\ map MethodName eachMethods = ["Each"; "cb"; "Bar"].
Proof. repeat split. Qed.






Example findModuleRoot_outside_any_module :
  findModuleRoot (goodWorld []) ["tmp"; "db"] = "".
Proof. reflexivity. Qed.


(** ** Further lemmas *)

Lemma isRet_mapM {A B : Type} (f : A -> outcome B) (l : list A) :
  (forall x, returnsOrPanics (f x)) ->
  isRet (mapM f l) = forallb (fun x => isRet (f x)) l.
Proof.
  intros Hf. induction l as [|x l IH]; simpl; [reflexivity|].
  specialize (Hf x). destruct (f x) as [y| | |]; simpl in *; try contradiction.
  - rewrite <- IH. destruct (mapM f l); reflexivity.
  - reflexivity.
Qed.

Lemma foldM_collect_mapM (pkg : string) (l : list Node) :
  forall fn ms,
    (st <- foldM (collectStep pkg) l (fn, ms) ;; Ret (snd st))
    = (r <- mapM (methodOf pkg) (funcTypesNamed l fn) ;; Ret (ms ++ r)%list).
Proof.
  induction l as [|n l IH]; intros fn ms.
  - simpl. now rewrite app_nil_r.
  - destruct n as [name| | | | |tps ps rs| | | | |]; try (exact (IH fn ms)).
    + exact (IH name ms).
    + cbn [foldM collectStep funcTypesNamed mapM fst snd]. unfold methodOf at 1.
      cbn [fst snd].
      destruct (fields (Some ps) pkg) as [i| | |]; cbn [bind]; try reflexivity.
      destruct (fields rs pkg) as [o| | |]; cbn [bind]; try reflexivity.
      rewrite IH.
      destruct (mapM (methodOf pkg) (funcTypesNamed l fn)) as [r| | |];
        cbn [bind]; try reflexivity.
      now rewrite <- app_assoc.
Qed.

Lemma exprToString_renders (e : Node) :
  (renders e = true -> exists s, exprToString e = Ret s)
  /\ (renders e = false -> exists msg, exprToString e = Panic msg).
Proof.
  revert e.
  apply (@Node_induction
           (fun e => (renders e = true -> exists s, exprToString e = Ret s)
                     /\ (renders e = false -> exists msg, exprToString e = Panic msg))
           (fun _ => True));
    try (intros; exact I);
    try (intros; simpl; split; [intros _; eexists; reflexivity | discriminate]).
  - intros x sel _. simpl. destruct x; split; intros H; try discriminate;
      eexists; reflexivity.
  - intros x [IH1 IH2]. simpl. split; intros H.
    + destruct (IH1 H) as [s ->]. eexists; reflexivity.
    + destruct (IH2 H) as [m ->]. eexists; reflexivity.
  - intros len elt _ [IH1 IH2]. simpl. split; intros H.
    + destruct (IH1 H) as [s ->]. eexists; reflexivity.
    + destruct (IH2 H) as [m ->]. eexists; reflexivity.
Qed.

Lemma isRet_exprToString (e : Node) : isRet (exprToString e) = renders e.
Proof.
  destruct (exprToString_renders e) as [H1 H2].
  destruct (renders e).
  - destruct (H1 eq_refl) as [s ->]. reflexivity.
  - destruct (H2 eq_refl) as [m ->]. reflexivity.
Qed.

Lemma forallb_pointwise {A : Type} (p q : A -> bool) (l : list A) :
  (forall x, p x = q x) -> forallb p l = forallb q l.
Proof.
  intros H. induction l as [|x l IH]; simpl; [reflexivity|]. now rewrite H, IH.
Qed.

Lemma isRet_fields (pkg : string) (fl : FieldList) :
  isRet (fields (Some fl) pkg) = allRender fl.
Proof.
  unfold fields, allRender. rewrite isRet_mapM.
  - apply forallb_pointwise. intros fd. unfold fieldOf.
    rewrite <- isRet_exprToString. destruct (exprToString (ast.Type_ fd)); reflexivity.
  - intros fd. unfold fieldOf.
    apply returnsOrPanics_bind; [apply exprToString_returnsOrPanics | intros; exact I].
Qed.

Lemma isRet_methodOf (pkg : string) (x : string * (FieldList * option FieldList)) :
  isRet (methodOf pkg x) = completes x.
Proof.
  destruct x as [name [ps rs]]. unfold methodOf, completes. cbn [fst snd].
  rewrite <- (isRet_fields pkg ps).
  destruct rs as [rs|].
  - rewrite <- (isRet_fields pkg rs).
    destruct (fields (Some ps) pkg); try reflexivity.
    destruct (fields (Some rs) pkg); reflexivity.
  - destruct (fields (Some ps) pkg); reflexivity.
Qed.

Lemma methodOf_returnsOrPanics (pkg : string)
    (x : string * (FieldList * option FieldList)) :
  returnsOrPanics (methodOf pkg x).
Proof.
  unfold methodOf.
  apply returnsOrPanics_bind; [apply fields_returnsOrPanics|]. intros i.
  apply returnsOrPanics_bind; [apply fields_returnsOrPanics|]. intros o. exact I.
Qed.

Lemma collectMethods_mapM (pkg : string) (q : Node) :
  collectMethods pkg q = mapM (methodOf pkg) (funcTypesNamed (preorder q) "").
Proof.
  rewrite collectMethods_foldM, foldM_collect_mapM. simpl. apply bind_ret_r.
Qed.

Lemma allChars_app (p : ascii -> bool) (a b : string) :
  allChars p (a ++ b) = allChars p a && allChars p b.
Proof.
  induction a as [|x a IH]; simpl; [reflexivity|]. now rewrite IH, andb_assoc.
Qed.

Lemma anyChar_app_r (p : ascii -> bool) (a b : string) :
  anyChar p b = true -> anyChar p (a ++ b) = true.
Proof.
  intros H. induction a as [|x a IH]; simpl; [exact H|]. rewrite IH. apply orb_true_r.
Qed.

Lemma append_cons (a : string) (c : ascii) (t : string) :
  a ++ String c t = (a ++ String c EmptyString) ++ t.
Proof. induction a as [|x a IH]; simpl; [reflexivity | now rewrite IH]. Qed.

Lemma wrapText_notAlnum (ws : list Wrap) : allChars notAlnum (wrapText ws) = true.
Proof. induction ws as [|[|len] ws IH]; simpl; auto. Qed.

Lemma exprToString_wrap (ws : list Wrap) (e : Node) (s : string) :
  exprToString e = Ret s -> exprToString (wrap ws e) = Ret (wrapText ws ++ s).
Proof.
  intros H. induction ws as [|[|len] ws IH]; simpl.
  - exact H.
  - rewrite IH. reflexivity.
  - rewrite IH. reflexivity.
Qed.

Lemma needsPackageRe_prefix_lower (p low : string) :
  allChars notAlnum p = true -> lowerInitial low = true ->
  needsPackageRe (p ++ low) = None.
Proof.
  intros Hp Hl. induction p as [|c p IH]; simpl.
  - apply needsPackageRe_lowerInitial, Hl.
  - simpl in Hp. apply andb_true_iff in Hp as [Hc Hp].
    apply needsPackageRe_skip; [apply negb_true_iff, Hc | apply IH, Hp].
Qed.

Lemma fields_single (pkg : string) (names : list string) (e : Node)
    (tag : option string) (s : string) :
  exprToString e = Ret s ->
  fields (Some [mkField names e tag]) pkg
  = Ret [ {| FieldName := firstName names;
             FieldType := match needsPackageRe s with
                          | Some (m1, m2) => m1 ++ pkg ++ "." ++ m2
                          | None => s
                          end |} ].
Proof.
  intros H. unfold fields, fieldOf. cbn [mapM ast.Type_ ast.Names].
  rewrite H. reflexivity.
Qed.

Lemma matchesAs_needsPackageRe (s p r : string) :
  needsPackageRe s = Some (p, r) <-> matchesAs s p r.
Proof. apply needsPackageRe_spec. Qed.

(** ** Further properties *)

(** X1.  The second traversal of Parse is a map over the function types of
    the declaration in the order of the traversal: each gives one record,
    named by the identifier met last before it (the empty name when there
    was none), with the fields of its Params and Results; the first panic
    of fields is the panic of the traversal.  So a function type below a
    method is named after the parameter that holds it, or, in an unnamed
    parameter, after the identifier of the type before it. *)
Theorem X1_collectMethods_is_a_map (pkg : string) (querier : Node) :
  collectMethods pkg querier
  = mapM (methodOf pkg) (funcTypesNamed (preorder querier) "").
Proof. apply collectMethods_mapM. Qed.

(** X8.  exprToString returns unless, going through pointers and arrays, it
    comes to a selector whose qualifier is no identifier; there the type
    assertion panics.  It never returns an error. *)
Theorem X8_exprToString_panics_only_on_selector (expr : Node) :
  (renders expr = true -> exists s, exprToString expr = Ret s)
  /\ (renders expr = false -> exists msg, exprToString expr = Panic msg).
Proof. apply exprToString_renders. Qed.

(** X10.  The second traversal of Parse completes exactly when every
    function type inside the declaration has a result list and all its
    parameter and result types render; otherwise it panics. *)
Theorem X10_collectMethods_completes_iff (pkg : string) (querier : Node) :
  (forallb completes (funcTypesNamed (preorder querier) "") = true ->
   exists ms, collectMethods pkg querier = Ret ms)
  /\ (forallb completes (funcTypesNamed (preorder querier) "") = false ->
      exists msg, collectMethods pkg querier = Panic msg).
Proof.
  assert (H : isRet (collectMethods pkg querier)
              = forallb completes (funcTypesNamed (preorder querier) "")).
  { rewrite collectMethods_mapM, isRet_mapM.
    - apply forallb_pointwise, isRet_methodOf.
    - apply methodOf_returnsOrPanics. }
  pose proof (collectMethods_returnsOrPanics pkg querier) as Hc.
  rewrite <- H.
  destruct (collectMethods pkg querier); simpl in *; try contradiction;
    split; intros E; try discriminate; eexists; reflexivity.
Qed.

(** X6.  needsPackageRe matches a text exactly when the text is a run of
    bytes outside A-Z, a-z, 0-9 followed by a byte in A-Z and then bytes
    other than the dot up to the end; the two groups are that run and the
    rest, and no other reading of the text exists. *)
Theorem X6_needsPackageRe_reads_uniquely (s : string) :
  match needsPackageRe s with
  | Some (p, r) =>
      matchesAs s p r /\ forall p' r', matchesAs s p' r' -> p' = p /\ r' = r
  | None => forall p r, ~ matchesAs s p r
  end.
Proof.
  destruct (needsPackageRe s) as [[p r]|] eqn:E.
  - split; [apply matchesAs_needsPackageRe, E|].
    intros p' r' H. apply matchesAs_needsPackageRe in H.
    rewrite E in H. inversion H. split; reflexivity.
  - intros p r H. apply matchesAs_needsPackageRe in H. congruence.
Qed.

(** X9.  The qualification goes through any nesting of pointers and arrays:
    around an identifier that starts with a letter in A-Z the Type is the
    text of the nesting, the declaring package, a dot and the identifier;
    around a selector whose qualifier holds a letter or digit of ASCII, and
    around an identifier that starts with a letter in a-z, the Type is the
    plain rendering.  The length of an array is not rendered. *)
Theorem X9_qualification_under_pointers_and_arrays (pkg foo q thing low : string)
    (names : list string) (tag : option string) (ws : list Wrap) :
  upperInitial foo = true -> allChars notDot foo = true ->
  anyChar isAlnum q = true -> lowerInitial low = true ->
  fields (Some [mkField names (wrap ws (Ident foo)) tag]) pkg
  = Ret [ {| FieldName := firstName names;
             FieldType := wrapText ws ++ pkg ++ "." ++ foo |} ]
  /\ fields (Some [mkField names (wrap ws (SelectorExpr (Ident q) thing)) tag]) pkg
     = Ret [ {| FieldName := firstName names;
                FieldType := wrapText ws ++ q ++ "." ++ thing |} ]
  /\ fields (Some [mkField names (wrap ws (Ident low)) tag]) pkg
     = Ret [ {| FieldName := firstName names; FieldType := wrapText ws ++ low |} ].
Proof.
  intros Hu Hd Hq Hl. split; [|split].
  - rewrite (fields_single pkg names _ tag _ (exprToString_wrap ws (Ident foo) foo eq_refl)).
    rewrite (needsPackageRe_prefixed _ _ (wrapText_notAlnum ws) Hu Hd). reflexivity.
  - rewrite (fields_single pkg names _ tag _
               (exprToString_wrap ws (SelectorExpr (Ident q) thing) _ eq_refl)).
    rewrite <- append_assoc.
    rewrite (needsPackageRe_qualified _ thing (anyChar_app_r isAlnum (wrapText ws) q Hq)).
    reflexivity.
  - rewrite (fields_single pkg names _ tag _ (exprToString_wrap ws (Ident low) low eq_refl)).
    rewrite (needsPackageRe_prefix_lower _ _ (wrapText_notAlnum ws) Hl). reflexivity.
Qed.

Lemma X9_witness :
  fields (Some [mkField ["users"]
                  (wrap [Slice None; Pointer] (Ident "User")) None]) "db"
  = Ret [ {| FieldName := "users"; FieldType := "[]*db.User" |} ]
  /\ fields (Some [mkField ["users"]
                     (wrap [Slice None; Pointer]
                        (SelectorExpr (Ident "sql") "NullString")) None]) "db"
     = Ret [ {| FieldName := "users"; FieldType := "[]*sql.NullString" |} ]
  /\ fields (Some [mkField ["users"]
                     (wrap [Slice None; Pointer] (Ident "byte")) None]) "db"
     = Ret [ {| FieldName := "users"; FieldType := "[]*byte" |} ].
Proof.
  exact (X9_qualification_under_pointers_and_arrays "db" "User" "sql" "NullString"
           "byte" ["users"] None [Slice None; Pointer]
           eq_refl eq_refl eq_refl eq_refl).
Defined.

(** X7.  A type outside the four shapes exprToString has a case for, under
    any nesting of pointers and arrays, gets the sentinel as its Type, with
    the text of the nesting before it and without the declaring package:
    the sentinel never matches needsPackageRe. *)
Theorem X7_sentinel_is_never_qualified (pkg : string) (expr : Node)
    (names : list string) (tag : option string) (ws : list Wrap) :
  isSupportedShape expr = false ->
  fields (Some [mkField names (wrap ws expr) tag]) pkg
  = Ret [ {| FieldName := firstName names;
             FieldType := wrapText ws ++ "<error_unhandled_" ++ typeName expr ++ ">" |} ].
Proof.
  intros H.
  assert (He : exprToString expr = Ret (sentinel expr)).
  { destruct expr; try discriminate; reflexivity. }
  rewrite (fields_single pkg names _ tag _ (exprToString_wrap ws expr _ He)).
  unfold sentinel.
  change ("<error_unhandled_" ++ typeName expr ++ ">")
    with (String "<" ("error_unhandled_" ++ typeName expr ++ ">")).
  rewrite (append_cons (wrapText ws) "<").
  rewrite needsPackageRe_prefix_lower; [reflexivity | | reflexivity].
  rewrite allChars_app, wrapText_notAlnum. reflexivity.
Qed.

Lemma X7_witness :
  fields (Some [mkField ["m"]
                  (wrap [Pointer] (MapType (Ident "string") (Ident "User"))) None]) "db"
  = Ret [ {| FieldName := "m"; FieldType := "*<error_unhandled_*ast.MapType>" |} ].
Proof.
  exact (X7_sentinel_is_never_qualified "db"
           (MapType (Ident "string") (Ident "User")) ["m"] None [Pointer] eq_refl).
Defined.

(** X3.  The qualification reads the rendered text, not the shape of the
    expression.  An identifier made of bytes outside A-Z, a-z, 0-9 (an
    underscore, a letter outside ASCII) followed by a letter in A-Z gets
    the declaring package put in after those bytes; a selector whose
    qualifier is made of such bytes alone, with a selected name that starts
    with a letter in A-Z, gets the declaring package put in after its dot. *)
Theorem X3_qualification_is_textual (pkg p name : string) (names : list string)
    (tag : option string) :
  allChars notAlnum p = true ->
  upperInitial name = true -> allChars notDot name = true ->
  fields (Some [mkField names (Ident (p ++ name)) tag]) pkg
  = Ret [ {| FieldName := firstName names; FieldType := p ++ pkg ++ "." ++ name |} ]
  /\ fields (Some [mkField names (SelectorExpr (Ident p) name) tag]) pkg
     = Ret [ {| FieldName := firstName names;
                FieldType := (p ++ ".") ++ pkg ++ "." ++ name |} ].
Proof.
  intros Hp Hu Hd. split.
  - rewrite (fields_single pkg names (Ident (p ++ name)) tag (p ++ name) eq_refl).
    rewrite (needsPackageRe_prefixed p name Hp Hu Hd). reflexivity.
  - rewrite (fields_single pkg names (SelectorExpr (Ident p) name) tag
               (p ++ "." ++ name) eq_refl).
    rewrite <- append_assoc.
    rewrite (needsPackageRe_prefixed (p ++ ".") name); auto.
    rewrite allChars_app, Hp. reflexivity.
Qed.

Lemma X3_witness :
  fields (Some [mkField [] (Ident (piName ++ "Float")) None]) "db"
  = Ret [ {| FieldName := ""; FieldType := piName ++ "db.Float" |} ]
  /\ fields (Some [mkField [] (SelectorExpr (Ident piName) "Float") None]) "db"
     = Ret [ {| FieldName := ""; FieldType := (piName ++ ".") ++ "db.Float" |} ].
Proof.
  exact (X3_qualification_is_textual "db" piName "Float" [] None
           eq_refl eq_refl eq_refl).
Defined.

Lemma findQuerier_sound_forest (n : Node) :
  forall q0, exists q',
    Inspect findQuerierFunc n q0 = Ret q' /\
    (q' = q0 \/ exists m, q' = Some m /\ In m (preorder n) /\ isQuerierSpec m = true).
Proof.
  unfold Inspect.
  apply (@Walk_forest (option Node) findQuerierFunc
           (fun w l => forall q0, exists q',
                w q0 = Ret q' /\
                (q' = q0 \/ exists m, q' = Some m /\ In m l /\ isQuerierSpec m = true))).
  - intros q0. exists q0. split; [reflexivity | left; reflexivity].
  - intros w1 w2 l1 l2 H1 H2 q0.
    destruct (H1 q0) as (q1 & E1 & S1). destruct (H2 q1) as (q2 & E2 & S2).
    exists q2. rewrite E1. cbn [bind]. split; [exact E2|].
    destruct S2 as [->|(m & -> & Hin & Hm)].
    + destruct S1 as [->|(m & -> & Hin & Hm)]; [left; reflexivity|].
      right. exists m. repeat split; auto. apply in_or_app. left. exact Hin.
    + right. exists m. repeat split; auto. apply in_or_app. right. exact Hin.
  - intros m w l H q0. unfold visit. destruct (isQuerierSpec m) eqn:E.
    + destruct m; try discriminate. simpl in E. simpl. rewrite E. simpl.
      eexists. split; [reflexivity|]. right. eexists. split; [reflexivity|].
      split; [left; reflexivity | exact E].
    + assert (Hm : findQuerierFunc (Some m) q0 = Ret (true, q0)).
      { destruct m; try reflexivity. simpl in E |- *. rewrite E. reflexivity. }
      rewrite Hm. cbn [bind fst snd].
      destruct (H q0) as (q' & Ew & S). rewrite Ew. cbn [bind].
      exists q'. split; [reflexivity|].
      destruct S as [->|(x & -> & Hin & Hx)]; [left; reflexivity|].
      right. exists x. repeat split; auto. right. exact Hin.
Qed.

Lemma Walk_findQuerier_Other (k : Kind) (cs : list Node) (q : option Node) :
  Walk findQuerierFunc (Other k cs) q = foldM (Walk findQuerierFunc) cs q.
Proof.
  unfold Walk at 1, visit. cbn [findQuerierFunc bind fst snd].
  change (walkChildren findQuerierFunc (Other k cs) q)
    with (foldM (Walk findQuerierFunc) cs q).
  destruct (foldM (Walk findQuerierFunc) cs q); reflexivity.
Qed.

Lemma Walk_findQuerier_total (l : list Node) :
  forall q, exists q', foldM (Walk findQuerierFunc) l q = Ret q'.
Proof.
  induction l as [|n l IH]; intros q; simpl.
  - eexists; reflexivity.
  - destruct (findQuerier_forest n q) as (q1 & E & _). unfold Inspect in E.
    rewrite E. cbn [bind]. apply IH.
Qed.

Lemma Walk_findQuerier_none (l : list Node) :
  forallb (fun n => negb (containsQuerier n)) l = true ->
  forall q, foldM (Walk findQuerierFunc) l q = Ret q.
Proof.
  induction l as [|n l IH]; simpl; intros H q; [reflexivity|].
  apply andb_true_iff in H as [Hn Hl]. apply negb_true_iff in Hn.
  destruct (findQuerier_forest n q) as (q1 & E & _ & N). unfold Inspect in E.
  rewrite E. cbn [bind]. rewrite (N Hn). apply IH, Hl.
Qed.

(** X11.  The first traversal of Parse always completes; what it leaves in
    querier is a type declaration named Querier that occurs in the file, or
    nil when the file holds none. *)
Theorem X11_target_is_a_declaration_of_the_file (file : ast.File) :
  exists querier,
    findQuerier file = Ret querier
    /\ match querier with
       | Some q => In q (preorder (FileNode file)) /\ isQuerierSpec q = true
       | None => containsQuerier (FileNode file) = false
       end.
Proof.
  destruct (findQuerier_sound_forest (FileNode file) None) as (q' & E & S).
  exists q'. split; [exact E|].
  destruct S as [->|(m & -> & Hin & Hm)]; [|split; assumption].
  destruct (containsQuerier (FileNode file)) eqn:Hc; [|reflexivity].
  destruct (@findQuerier_some file Hc) as (q & Eq & _).
  unfold findQuerier in Eq. congruence.
Qed.

(** X4.  The first traversal does not stop at a declaration named Querier:
    it leaves out what is inside it and goes on.  When the specs after a
    declaration of that name in its group, and the declarations after the
    group, hold no declaration of that name, this one is the target,
    whatever comes before it: of several declarations Querier at the top
    level of a file the last one is used. *)
Theorem X4_last_querier_is_the_target (name : string)
    (imports : list ast.ImportSpec) (ds1 specs1 : list Node)
    (tps : option FieldList) (ty : Node) (specs2 ds2 : list Node) :
  forallb (fun n => negb (containsQuerier n)) specs2 = true ->
  forallb (fun n => negb (containsQuerier n)) ds2 = true ->
  findQuerier
    {| FileName := name;
       Decls := (ds1 ++ GenDecl (specs1 ++ TypeSpec "Querier" tps ty :: specs2) :: ds2)%list;
       ast.Imports := imports |}
  = Ret (Some (TypeSpec "Querier" tps ty)).
Proof.
  intros Hs Hd. unfold findQuerier, Inspect, FileNode. cbn [FileName Decls].
  rewrite Walk_findQuerier_Other.
  change (foldM (Walk findQuerierFunc)
            (Ident name :: ds1 ++ GenDecl (specs1 ++ TypeSpec "Querier" tps ty :: specs2) :: ds2)%list
            None)
    with (foldM (Walk findQuerierFunc)
            (ds1 ++ GenDecl (specs1 ++ TypeSpec "Querier" tps ty :: specs2) :: ds2)%list
            None).
  rewrite foldM_app.
  destruct (Walk_findQuerier_total ds1 None) as [q1 ->]. cbn [bind foldM].
  unfold GenDecl. rewrite Walk_findQuerier_Other, foldM_app.
  destruct (Walk_findQuerier_total specs1 q1) as [q2 ->]. cbn [bind foldM].
  change (Walk findQuerierFunc (TypeSpec "Querier" tps ty) q2)
    with (Ret (Some (TypeSpec "Querier" tps ty))).
  cbn [bind]. rewrite (Walk_findQuerier_none specs2 Hs). cbn [bind].
  apply (Walk_findQuerier_none ds2 Hd).
Qed.

Lemma X4_witness :
  findQuerier (fileOf twoQueriers)
  = Ret (Some (TypeSpec "Querier" None (StructType []))).
Proof.
  exact (X4_last_querier_is_the_target "db"
           [ {| ImportName := None;
                ImportPath := doubleQuote ++ "context" ++ doubleQuote |} ]
           [GenDecl [ImportSpecNode None]; GenDecl [interfaceDecl [Declared getUser]]]
           [] None (StructType []) [] [] eq_refl eq_refl).
Defined.

Lemma nearest_module_or_none (w : World) (dir : filepath.path) :
  (exists r rest,
      dir = (r ++ rest)%list
      /\ IsRegular w (filepath.Join (filepath.toString r) "go.mod") = true
      /\ forall rest1 rest2, rest = (rest1 ++ rest2)%list -> rest1 <> [] ->
           IsRegular w (filepath.Join (filepath.toString (r ++ rest1)%list) "go.mod")
           = false)
  \/ (forall r rest, dir = (r ++ rest)%list ->
        IsRegular w (filepath.Join (filepath.toString r) "go.mod") = false).
Proof.
  induction dir as [|x init IH] using rev_ind.
  - destruct (IsRegular w (filepath.Join (filepath.toString []) "go.mod")) eqn:E.
    + left. exists [], []. repeat split; auto.
      intros rest1 rest2 H Hne. destruct rest1; [congruence | discriminate].
    + right. intros r rest H. symmetry in H. apply app_eq_nil in H as [-> _].
      exact E.
  - destruct (IsRegular w (filepath.Join (filepath.toString (init ++ [x])%list) "go.mod"))
      eqn:E.
    + left. exists (init ++ [x])%list, []. rewrite app_nil_r. repeat split; auto.
      intros rest1 rest2 H Hne. destruct rest1; [congruence | discriminate].
    + destruct IH as [(r & rest & Hdir & Hreg & Hnear) | Hnone].
      * left. exists r, (rest ++ [x])%list. subst init.
        rewrite app_assoc. repeat split; auto.
        intros rest1 rest2 H Hne.
        destruct rest2 as [|y rest2 _] using rev_ind.
        -- rewrite app_nil_r in H. subst rest1. rewrite app_assoc. exact E.
        -- rewrite app_assoc in H. apply app_inj_tail in H as [H _].
           apply (Hnear rest1 rest2 H Hne).
      * right. intros r rest H.
        destruct rest as [|y rest _] using rev_ind.
        -- rewrite app_nil_r in H. subst r. exact E.
        -- rewrite app_assoc in H. apply app_inj_tail in H as [H _].
           apply (Hnone r rest H).
Qed.

Lemma joinElements_not_empty (p : filepath.path) : filepath.toString p <> "".
Proof. destruct p; discriminate. Qed.

Lemma Parse_findOutputModule_notRet (w : World) (opts : Opts) :
  (forall out, isRet (findOutputModule w out opts) = false) ->
  forall o, Parse w opts <> Ret o.
Proof.
  intros H o. unfold Parse.
  destruct (ParseFile w (InputFile opts)) as [file|]; [|discriminate].
  destruct (findQuerier file) as [[q|]| | |]; cbn [bind]; try discriminate.
  destruct (collectMethods _ q); cbn [bind]; try discriminate.
  destruct (mapM _ _); cbn [bind]; try discriminate.
  destruct (setOutputPackage _ _ _) as [out| | |]; cbn [bind]; try discriminate.
  specialize (H out). destruct (findOutputModule w out opts); discriminate.
Qed.

(** X14.  The search of findModuleRoot gives the text of the nearest
    directory, from the one it starts at up to the root directory, that
    holds an entry go.mod that is no directory; it gives the empty text
    exactly when there is no such directory. *)
Theorem X14_findModuleRoot_nearest_or_empty (w : World) (dir : filepath.path) :
  (exists r rest,
      dir = (r ++ rest)%list
      /\ IsRegular w (filepath.Join (filepath.toString r) "go.mod") = true
      /\ (forall rest1 rest2, rest = (rest1 ++ rest2)%list -> rest1 <> [] ->
            IsRegular w (filepath.Join (filepath.toString (r ++ rest1)%list) "go.mod")
            = false)
      /\ findModuleRoot w dir = filepath.toString r
      /\ findModuleRoot w dir <> "")
  \/ ((forall r rest, dir = (r ++ rest)%list ->
         IsRegular w (filepath.Join (filepath.toString r) "go.mod") = false)
      /\ findModuleRoot w dir = "").
Proof.
  destruct (nearest_module_or_none w dir) as [(r & rest & Hdir & Hreg & Hnear) | Hnone].
  - left. exists r, rest.
    assert (Hroot : findModuleRoot w dir = filepath.toString r).
    { unfold findModuleRoot. rewrite Hdir.
      apply findModuleRootLoop_nearest; auto. rewrite length_app. lia. }
    repeat split; auto. rewrite Hroot. apply joinElements_not_empty.
  - right. split; [exact Hnone|].
    unfold findModuleRoot. apply findModuleRootLoop_none, Hnone.
Qed.





(** X13.  A go.mod that parses but has no module directive makes
    findOutputModule panic on the nil Module; the run then writes nothing
    and ends with a status other than 0. *)
Theorem X13_go_mod_without_module_directive (w : World) (out : Output)
    (opts : Opts) (abs : filepath.path) (content : string) :
  Abs w (InputFile opts) = Success abs ->
  ReadFile w (filepath.Join (findModuleRoot w (filepath.Dir abs)) "go.mod")
  = Success content ->
  ModfileParse w (filepath.Join (findModuleRoot w (filepath.Dir abs)) "go.mod") content
  = Success None ->
  findOutputModule w out opts = Panic nilDereference
  /\ forall cl rest,
       Args cl = InputFile opts :: rest ->
       optsOf cl (InputFile opts) = opts ->
       written (main w cl) = [] /\ exitStatus (main w cl) <> 0.
Proof.
  intros Ha Hread Hmod.
  assert (H : forall o, findOutputModule w o opts = Panic nilDereference).
  { intros o. unfold findOutputModule. rewrite Ha. cbv zeta.
    rewrite Hread, Hmod. reflexivity. }
  split; [apply H|]. intros cl rest Hargs Hopts.
  apply (run_Parse_not_Ret w cl (InputFile opts) rest Hargs).
  rewrite Hopts. apply Parse_findOutputModule_notRet.
  intros o. rewrite H. reflexivity.
Qed.

Lemma X13_witness :
  findOutputModule
    (moduleWorld ["proj"; "db"; "querier.go"] ["proj"; "mock"; "mock.go"]
       "/proj/go.mod" (Success None))
    getUserOutput sampleOpts
  = Panic nilDereference
  /\ main (moduleWorld ["proj"; "db"; "querier.go"] ["proj"; "mock"; "mock.go"]
             "/proj/go.mod" (Success None)) sampleCommandLine
     = {| exitStatus := 2; logged := ["panic: " ++ nilDereference]; written := [] |}.
Proof.
  split.
  - exact (proj1 (X13_go_mod_without_module_directive
             (moduleWorld ["proj"; "db"; "querier.go"] ["proj"; "mock"; "mock.go"]
                "/proj/go.mod" (Success None))
             getUserOutput sampleOpts ["proj"; "db"; "querier.go"]
             "module example.com/proj" eq_refl eq_refl eq_refl)).
  - reflexivity.
Defined.



Lemma mapM_Forall2 {A B : Type} (f : A -> outcome B) (l : list A) (r : list B) :
  mapM f l = Ret r -> Forall2 (fun x y => f x = Ret y) l r.
Proof.
  revert r. induction l as [|x l IH]; intros r; simpl.
  - intros H; inversion H. constructor.
  - destruct (f x) as [y| | |] eqn:E; cbn [bind]; try discriminate.
    destruct (mapM f l) as [ys| | |]; cbn [bind]; try discriminate.
    intros H; inversion H; subst. constructor; auto.
Qed.

(** What a returned Output is made of. *)
Lemma Parse_Ret_inv (w : World) (opts : Opts) (file : ast.File) (out : Output) :
  ParseFile w (InputFile opts) = Success file ->
  Parse w opts = Ret out ->
  exists q ms imps out1,
    findQuerier file = Ret (Some q)
    /\ collectMethods (FileName file) q = Ret ms
    /\ mapM (importOf w) (ast.Imports file) = Ret imps
    /\ setOutputPackage w
         {| GenPackage := ""; ModelPath := ""; Package := FileName file;
            Struct := "Mocker"; Imports := imps; Methods := ms |} opts = Ret out1
    /\ findOutputModule w out1 opts = Ret out.
Proof.
  intros Hp. unfold Parse. rewrite Hp.
  destruct (findQuerier file) as [[q|]| | |] eqn:Eq; cbn [bind]; try discriminate.
  cbv zeta.
  destruct (collectMethods (FileName file) q) as [ms| | |] eqn:Em; cbn [bind];
    try discriminate.
  destruct (mapM (importOf w) (ast.Imports file)) as [imps| | |] eqn:Ei; cbn [bind];
    try discriminate.
  destruct (setOutputPackage _ _ _) as [out1| | |] eqn:E; cbn [bind]; try discriminate.
  intros H. exists q, ms, imps, out1. repeat split; auto.
Qed.

Lemma findOutputModule_Ret_inv (w : World) (out1 out : Output) (opts : Opts) :
  findOutputModule w out1 opts = Ret out ->
  exists v, out = withModelPath out1 v.
Proof.
  unfold findOutputModule.
  destruct (Abs w (InputFile opts)); try discriminate.
  destruct (ReadFile w _); try discriminate.
  destruct (ModfileParse w _ _) as [[m|]|]; try discriminate.
  intros H; inversion H. eexists; reflexivity.
Qed.

Lemma setOutputPackage_Ret_inv (w : World) (out0 out1 : Output) (opts : Opts) :
  setOutputPackage w out0 opts = Ret out1 ->
  (OutputPackage opts <> "" /\ out1 = withGenPackage out0 (OutputPackage opts))
  \/ (OutputPackage opts = ""
      /\ exists outPath,
           Abs w (OutputFile opts) = Success outPath
           /\ out1 = withGenPackage out0 (filepath.Base (filepath.Dir outPath))).
Proof.
  unfold setOutputPackage.
  destruct (String.eqb (OutputPackage opts) "") eqn:E; simpl.
  - apply String.eqb_eq in E.
    destruct (Abs w (OutputFile opts)) as [outPath|]; try discriminate.
    intros H; inversion H. right. split; [exact E|]. exists outPath. auto.
  - apply String.eqb_neq in E. intros H; inversion H. left. auto.
Qed.

(** X2.  Whatever the input, the Output that Parse returns has the Struct
    Mocker and the Package of the package clause of the file. *)
Theorem X2_struct_is_Mocker (w : World) (opts : Opts) (file : ast.File)
    (out : Output) :
  ParseFile w (InputFile opts) = Success file ->
  Parse w opts = Ret out ->
  Struct out = "Mocker" /\ Package out = FileName file.
Proof.
  intros Hp HP.
  destruct (Parse_Ret_inv w opts file out Hp HP)
    as (q & ms & imps & out1 & _ & _ & _ & Hs & Hf).
  destruct (findOutputModule_Ret_inv w out1 out opts Hf) as [v ->].
  destruct (setOutputPackage_Ret_inv w _ out1 opts Hs)
    as [[_ ->] | [_ (outPath & _ & ->)]]; split; reflexivity.
Qed.

Lemma X2_witness : Struct getUserOutput = "Mocker" /\ Package getUserOutput = "db".
Proof.
  exact (X2_struct_is_Mocker
           (goodWorld [GenDecl [interfaceDecl [Declared getUser]]]) sampleOpts
           getUserFile getUserOutput eq_refl eq_refl).
Defined.

(** X17.  The Imports of the Output that Parse returns are the import
    declarations of the file, one for one and in their order: the Path is
    the unquoted path literal, the Name the alias, empty when the import
    has none. *)
Theorem X17_imports_in_order (w : World) (opts : Opts) (file : ast.File)
    (out : Output) :
  ParseFile w (InputFile opts) = Success file ->
  Parse w opts = Ret out ->
  Forall2 (fun imp i => Unquote w (ImportPath imp) = Success (Path i)
                        /\ Name i = importName imp)
          (ast.Imports file) (Imports out).
Proof.
  intros Hp HP.
  destruct (Parse_Ret_inv w opts file out Hp HP)
    as (q & ms & imps & out1 & _ & _ & Hi & Hs & Hf).
  destruct (findOutputModule_Ret_inv w out1 out opts Hf) as [v ->].
  assert (Himps : Imports (withModelPath out1 v) = imps).
  { destruct (setOutputPackage_Ret_inv w _ out1 opts Hs)
      as [[_ ->] | [_ (outPath & _ & ->)]]; reflexivity. }
  rewrite Himps. apply mapM_Forall2 in Hi.
  eapply Forall2_impl; [|exact Hi].
  intros imp i H. unfold importOf in H.
  destruct (Unquote w (ImportPath imp)) as [path|]; [|discriminate].
  inversion H. split; reflexivity.
Qed.

Lemma X17_witness :
  Forall2 (fun imp i =>
             Unquote (goodWorld [GenDecl [interfaceDecl [Declared getUser]]])
               (ImportPath imp) = Success (Path i)
             /\ Name i = importName imp)
          (ast.Imports getUserFile) (Imports getUserOutput).
Proof.
  exact (X17_imports_in_order
           (goodWorld [GenDecl [interfaceDecl [Declared getUser]]]) sampleOpts
           getUserFile getUserOutput eq_refl eq_refl).
Defined.

(** X18.  The GenPackage of the Output that Parse returns is the package
    given on the command line when one is given; otherwise it is the last
    element of the directory of the absolute path of the output file (the
    slash when that directory is the root directory). *)
Theorem X18_generated_package (w : World) (opts : Opts) (file : ast.File)
    (out : Output) :
  ParseFile w (InputFile opts) = Success file ->
  Parse w opts = Ret out ->
  (OutputPackage opts <> "" /\ GenPackage out = OutputPackage opts)
  \/ (OutputPackage opts = ""
      /\ exists outPath,
           Abs w (OutputFile opts) = Success outPath
           /\ GenPackage out = filepath.Base (filepath.Dir outPath)).
Proof.
  intros Hp HP.
  destruct (Parse_Ret_inv w opts file out Hp HP)
    as (q & ms & imps & out1 & _ & _ & _ & Hs & Hf).
  destruct (findOutputModule_Ret_inv w out1 out opts Hf) as [v ->].
  destruct (setOutputPackage_Ret_inv w _ out1 opts Hs)
    as [[Hne ->] | [He (outPath & Ha & ->)]].
  - left. split; [exact Hne | reflexivity].
  - right. split; [exact He|]. exists outPath. split; [exact Ha | reflexivity].
Qed.

Lemma X18_witness :
  (OutputPackage sampleOpts <> "" /\ GenPackage getUserOutput = OutputPackage sampleOpts)
  \/ (OutputPackage sampleOpts = ""
      /\ exists outPath,
           Abs (goodWorld [GenDecl [interfaceDecl [Declared getUser]]])
             (OutputFile sampleOpts) = Success outPath
           /\ GenPackage getUserOutput = filepath.Base (filepath.Dir outPath)).
Proof.
  exact (X18_generated_package
           (goodWorld [GenDecl [interfaceDecl [Declared getUser]]]) sampleOpts
           getUserFile getUserOutput eq_refl eq_refl).
Defined.

(** X16.  Render never panics.  An error it returns is either the error of
    reading the template file, with the words failed to open template file
    before it, which needs a template file to be named; or the error of the
    formatter, with the words failed to format source before it, which
    needs formatting to be asked for.  It ends the process only on an error
    of parsing or of executing the template.  What it returns is what the
    template engine wrote, passed through the formatter when formatting is
    asked for and untouched otherwise; the template is the embedded one
    unless a template file is named. *)
Theorem X16_render_outcomes (w : World) (out : Output) (opts : Opts) :
  match Render w out opts with
  | Ret generated =>
      exists content buff,
        templateContentOf w opts = Ret content
        /\ (TemplateFile opts = "" -> content = defaultTpl w)
        /\ TemplateParse w content = None
        /\ TemplateExecute w content out = Success buff
        /\ (Format opts = false -> generated = buff)
        /\ (Format opts = true -> FormatSource w buff = Success generated)
  | Err e =>
      (exists msg,
          e = Errorf "failed to open template file: " (Foreign msg)
          /\ TemplateFile opts <> ""
          /\ ReadFile w (TemplateFile opts) = Failure msg)
      \/ (exists msg buff,
             e = Errorf "failed to format source: " (Foreign msg)
             /\ Format opts = true
             /\ FormatSource w buff = Failure msg)
  | Fatal e =>
      exists content msg,
        templateContentOf w opts = Ret content
        /\ e = Foreign msg
        /\ (TemplateParse w content = Some msg
            \/ (TemplateParse w content = None
                /\ TemplateExecute w content out = Failure msg))
  | Panic _ => False
  end.
Proof.
  unfold Render, templateContentOf.
  destruct (String.eqb (TemplateFile opts) "") eqn:Et; cbn [negb].
  - cbn [bind]. destruct (TemplateParse w (defaultTpl w)) as [pm|] eqn:Ep.
    { exists (defaultTpl w), pm. auto. }
    destruct (TemplateExecute w (defaultTpl w) out) as [buff|xm] eqn:Ex.
    2:{ exists (defaultTpl w), xm. auto. }
    destruct (Format opts) eqn:Ef; cbn [negb].
    + destruct (FormatSource w buff) as [g|msg] eqn:Es.
      * exists (defaultTpl w), buff. repeat split; auto. discriminate.
      * right. exists msg, buff. auto.
    + exists (defaultTpl w), buff. repeat split; auto. discriminate.
  - apply String.eqb_neq in Et.
    destruct (ReadFile w (TemplateFile opts)) as [content|msg] eqn:Er; cbn [bind].
    + destruct (TemplateParse w content) as [pm|] eqn:Ep.
      { exists content, pm. auto. }
      destruct (TemplateExecute w content out) as [buff|xm] eqn:Ex.
      2:{ exists content, xm. auto. }
      destruct (Format opts) eqn:Ef; cbn [negb].
      * destruct (FormatSource w buff) as [g|msg] eqn:Es.
        -- exists content, buff. repeat split; auto; try discriminate.
           intros H. contradiction.
        -- right. exists msg, buff. auto.
      * exists content, buff. repeat split; auto; try discriminate.
        intros H. contradiction.
    + left. exists msg. auto.
Qed.

(** X15.  A run calls os.WriteFile at most once, and only after Parse and
    Render have both returned: the name is the output file and the data is
    what Render returned.  The process ends with status 0 exactly when
    there is an input file on the command line, Parse and Render return,
    and the write succeeds. *)
Theorem X15_no_partial_output (w : World) (cl : CommandLine) :
  (written (main w cl) = []
   \/ exists arg0 rest out generated,
        Args cl = arg0 :: rest
        /\ Parse w (optsOf cl arg0) = Ret out
        /\ Render w out (optsOf cl arg0) = Ret generated
        /\ written (main w cl) = [(output cl, generated)])
  /\ (exitStatus (main w cl) = 0 <->
      exists arg0 rest out generated,
        Args cl = arg0 :: rest
        /\ Parse w (optsOf cl arg0) = Ret out
        /\ Render w out (optsOf cl arg0) = Ret generated
        /\ WriteFile w (output cl) generated = None).
Proof.
  unfold main, run. destruct (Args cl) as [|arg0 rest] eqn:Ea.
  - simpl. split; [left; reflexivity|]. split; [discriminate|].
    intros (a & r & _ & _ & H & _). discriminate.
  - destruct (Parse w (optsOf cl arg0)) as [out| | |] eqn:EP; cbn [bind].
    + destruct (Render w out (optsOf cl arg0)) as [generated| | |] eqn:ER.
      * cbn [OutputFile optsOf].
        destruct (WriteFile w (output cl) generated) as [msg|] eqn:EW; simpl.
        -- split.
           ++ right. exists arg0, rest, out, generated. auto.
           ++ split; [discriminate|].
              intros (a & r & o & g & Ha & HP & HR & HW).
              inversion Ha; subst. rewrite EP in HP. inversion HP; subst.
              rewrite ER in HR. inversion HR; subst. congruence.
        -- split.
           ++ right. exists arg0, rest, out, generated. auto.
           ++ split; [|reflexivity].
              intros _. exists arg0, rest, out, generated. auto.
      * simpl. split; [left; reflexivity|]. split; [discriminate|].
        intros (a & r & o & g & Ha & HP & HR & _).
        inversion Ha; subst. rewrite EP in HP. inversion HP; subst. congruence.
      * simpl. split; [left; reflexivity|]. split; [discriminate|].
        intros (a & r & o & g & Ha & HP & HR & _).
        inversion Ha; subst. rewrite EP in HP. inversion HP; subst. congruence.
      * simpl. split; [left; reflexivity|]. split; [discriminate|].
        intros (a & r & o & g & Ha & HP & HR & _).
        inversion Ha; subst. rewrite EP in HP. inversion HP; subst. congruence.
    + simpl. split; [left; reflexivity|]. split; [discriminate|].
      intros (a & r & o & g & Ha & HP & _). inversion Ha; subst. congruence.
    + simpl. split; [left; reflexivity|]. split; [discriminate|].
      intros (a & r & o & g & Ha & HP & _). inversion Ha; subst. congruence.
    + simpl. split; [left; reflexivity|]. split; [discriminate|].
      intros (a & r & o & g & Ha & HP & _). inversion Ha; subst. congruence.
Qed.

(** X20.  The Methods of the Output that Parse returns are the records of
    the second traversal, run on the declaration the first traversal found
    and with the name of the package clause as declaring package; setting
    GenPackage and ModelPath leaves them as they are. *)
Theorem X20_methods_of_the_output (w : World) (opts : Opts) (file : ast.File)
    (out : Output) :
  ParseFile w (InputFile opts) = Success file ->
  Parse w opts = Ret out ->
  exists q,
    findQuerier file = Ret (Some q)
    /\ collectMethods (FileName file) q = Ret (Methods out).
Proof.
  intros Hp HP.
  destruct (Parse_Ret_inv w opts file out Hp HP)
    as (q & ms & imps & out1 & Hq & Hm & _ & Hs & Hf).
  destruct (findOutputModule_Ret_inv w out1 out opts Hf) as [v ->].
  exists q. split; [exact Hq|].
  destruct (setOutputPackage_Ret_inv w _ out1 opts Hs)
    as [[_ ->] | [_ (outPath & _ & ->)]]; exact Hm.
Qed.

Lemma X20_witness :
  exists q,
    findQuerier getUserFile = Ret (Some q)
    /\ collectMethods (FileName getUserFile) q = Ret (Methods getUserOutput).
Proof.
  exact (X20_methods_of_the_output
           (goodWorld [GenDecl [interfaceDecl [Declared getUser]]]) sampleOpts
           getUserFile getUserOutput eq_refl eq_refl).
Defined.

(** X21.  The errors that are returned reach main, which prints the message
    and exits with status 1: without an input file on the command line the
    usage message, with nothing read; an error of Parse or of Render, with
    nothing written; and an error of os.WriteFile, after the one call that
    failed. *)
Theorem X21_returned_errors_reach_main (w : World) (cl : CommandLine) :
  (Args cl = [] ->
   main w cl = {| exitStatus := 1; logged := ["usage: shmock path/to/querier.go"];
                  written := [] |})
  /\ (forall arg0 rest e,
        Args cl = arg0 :: rest ->
        Parse w (optsOf cl arg0) = Err e ->
        main w cl = {| exitStatus := 1; logged := [errorString e]; written := [] |})
  /\ (forall arg0 rest out e,
        Args cl = arg0 :: rest ->
        Parse w (optsOf cl arg0) = Ret out ->
        Render w out (optsOf cl arg0) = Err e ->
        main w cl = {| exitStatus := 1; logged := [errorString e]; written := [] |})
  /\ (forall arg0 rest out generated msg,
        Args cl = arg0 :: rest ->
        Parse w (optsOf cl arg0) = Ret out ->
        Render w out (optsOf cl arg0) = Ret generated ->
        WriteFile w (output cl) generated = Some msg ->
        main w cl = {| exitStatus := 1; logged := [msg];
                       written := [(output cl, generated)] |}).
Proof.
  unfold main, run. repeat split.
  - intros ->. reflexivity.
  - intros arg0 rest e -> ->. reflexivity.
  - intros arg0 rest out e -> ->. cbn [bind]. intros ->. reflexivity.
  - intros arg0 rest out generated msg -> ->. cbn [bind]. intros ->.
    cbn [OutputFile optsOf]. intros ->. reflexivity.
Qed.

Example Parse_getUser_scenario :
  Parse (goodWorld [GenDecl [interfaceDecl [Declared getUser]]]) sampleOpts
  = Ret getUserOutput.
Proof. reflexivity. Qed.



